(** * generate_icons.py: a shallow embedding and its specification

    The script [generate_icons.py] renders three RGBA icons with PIL and
    writes them into the directory [icons].  Its arithmetic mixes Python
    integers and Python floats (binary64): [y / size], [size * 0.15],
    [(size - 2 * padding) * 0.7], ...  Floats are modelled exactly: a float
    is the rational number it denotes, and every float operation rounds its
    exact result to the nearest binary64 value (ties to even), as IEEE 754
    prescribes.  The sizes involved stay far from the overflow and
    subnormal ranges, so the model has no exponent bounds. *)

From Stdlib Require Import ZArith QArith Qround Qpower Qabs Lia Lqa Psatz String List Bool.
Import ListNotations.

Local Open Scope Z_scope.

(** ** Binary64 arithmetic on rationals *)
Module F64.

(** Round half to even of a rational [s]. *)
Definition rne (s : Q) : Z :=
  let f := Qfloor s in
  match Qcompare (s - inject_Z f) (1 # 2) with
  | Lt => f
  | Gt => f + 1
  | Eq => if Z.even f then f else f + 1
  end.

(** Power of two with an integer exponent. *)
Definition pow2 (e : Z) : Q := Qpower (2 # 1) e.

(** For a positive rational [x], the exponent [e] with
    [2^52 <= x / 2^e < 2^53]: the value of the unit in the last place of a
    53-bit significand. *)
Definition exponent (x : Q) : Z :=
  let e0 := Z.log2 (Qnum x) - Z.log2 (Zpos (Qden x)) - 52 in
  if Qfloor (x / pow2 e0) <? 2 ^ 52 then e0 - 1 else e0.

(** Rounding of a positive rational to 53 significant bits. *)
Definition round_pos (x : Q) : Q :=
  let e := exponent x in
  inject_Z (rne (x / pow2 e)) * pow2 e.

(** Rounding of any rational to the nearest binary64 value. *)
Definition round (x : Q) : Q :=
  match Qnum x with
  | Z0 => 0
  | Zpos _ => round_pos x
  | Zneg _ => - round_pos (- x)
  end.

(** Python's [float(n)] of an integer, [a * b], [a + b] and [a / b] on
    floats, [n / m] on integers (true division, correctly rounded), and
    [int(x)] (truncation toward zero). *)
Definition of_int (n : Z) : Q := round (inject_Z n).
Definition mul (a b : Q) : Q := round (a * b).
Definition add (a b : Q) : Q := round (a + b).
Definition int_div (n m : Z) : Q := round (inject_Z n / inject_Z m).
Definition to_int (x : Q) : Z := Z.quot (Qnum x) (Zpos (Qden x)).

(** The binary64 values of the literals of the script. *)
Definition lit_0_15 : Q := 5404319552844595 # 36028797018963968.
Definition lit_0_2 : Q := 3602879701896397 # 18014398509481984.
Definition lit_0_8 : Q := 3602879701896397 # 4503599627370496.
Definition lit_0_3 : Q := 5404319552844595 # 18014398509481984.
Definition lit_0_5 : Q := 1 # 2.
Definition lit_0_7 : Q := 3152519739159347 # 4503599627370496.

(** The unit roundoff [2^-53]. *)
Definition u53 : Q := 1 # 9007199254740992.

End F64.

(** ** Images and PIL drawing commands *)

(** A pixel of an RGBA image: four 8-bit channels. *)
Record rgba := mk_rgba { red : Z; green : Z; blue : Z; alpha : Z }.

(** An image: its size and its pixels (meaningful on [0, width) x [0, height)). *)
Record image := mk_image { width : Z; height : Z; pixel : Z -> Z -> rgba }.

(** [Image.new('RGBA', (w, h), c)]. *)
Definition image_new (w h : Z) (c : rgba) : image :=
  mk_image w h (fun _ _ => c).

Definition transparent : rgba := mk_rgba 0 0 0 0.
Definition white : rgba := mk_rgba 255 255 255 255.

(** The three [ImageDraw] calls of the script:
    [draw.rectangle(xy, fill=ink)], [draw.rectangle(xy, outline=ink, width=w)]
    and [draw.line([(x0, y0), (x1, y1)], fill=ink, width=w)]. *)
Inductive draw_cmd :=
| DrawFill (x0 y0 x1 y1 : Z) (ink : rgba)
| DrawOutline (x0 y0 x1 y1 : Z) (ink : rgba) (w : Z)
| DrawLine (x0 y0 x1 y1 : Z) (ink : rgba) (w : Z).

Definition cmd_ink (c : draw_cmd) : rgba :=
  match c with
  | DrawFill _ _ _ _ ink | DrawOutline _ _ _ _ ink _ | DrawLine _ _ _ _ ink _ => ink
  end.

Definition between (v a b : Z) : bool := (Z.min a b <=? v) && (v <=? Z.max a b).

Section Render.

(** The pixels a wide line covers are those of PIL's rasteriser, which
    the script does not fix: every statement below holds for any
    rasterisation [line_cover x0 y0 x1 y1 w x y]. *)
Variable line_cover : Z -> Z -> Z -> Z -> Z -> Z -> Z -> bool.

(** Pixels covered by a command, following libImaging's
    [ImagingDrawRectangle]: a filled rectangle covers its corners inclusive;
    an outline of width [w] draws, for [i < w], the rows [y0 + i] and
    [y1 - i] and the columns [x0 + i] and [x1 - i] from [y0 + w] to
    [y1 - w]. *)
Definition covers (c : draw_cmd) (x y : Z) : bool :=
  match c with
  | DrawFill x0 y0 x1 y1 _ =>
      (x0 <=? x) && (x <=? x1) && (y0 <=? y) && (y <=? y1)
  | DrawOutline x0 y0 x1 y1 _ w =>
      let w := if w =? 0 then 1 else w in
      ((x0 <=? x) && (x <=? x1) &&
        (((y0 <=? y) && (y <? y0 + w)) || ((y1 - w <? y) && (y <=? y1))))
      || (((x0 <=? x) && (x <? x0 + w)) || ((x1 - w <? x) && (x <=? x1)))
         && between y (y0 + w) (y1 - w)
  | DrawLine x0 y0 x1 y1 _ w => line_cover x0 y0 x1 y1 w x y
  end.

(** Drawing in mode RGBA without blending: covered pixels inside the
    image take the ink. *)
Definition in_image (img : image) (x y : Z) : bool :=
  (0 <=? x) && (x <? width img) && (0 <=? y) && (y <? height img).

Definition apply_cmd (img : image) (c : draw_cmd) : image :=
  mk_image (width img) (height img)
    (fun x y => if in_image img x y && covers c x y then cmd_ink c
                else pixel img x y).

Definition render (img : image) (cs : list draw_cmd) : image :=
  fold_left apply_cmd cs img.

End Render.

(** Every pixel of the image is fully opaque. *)
Definition opaque (img : image) : Prop :=
  forall x y, in_image img x y = true -> alpha (pixel img x y) = 255.

(** ** create_icon *)

(** [range(n)]. *)
Definition range (n : Z) : list Z := map Z.of_nat (seq 0 (Z.to_nat n)).

(** The colour of row [y] (lines 12-15). *)
Definition gradient_color (size y : Z) : rgba :=
  let ratio := F64.int_div y size in
  let r := F64.to_int (F64.add (F64.of_int 139) (F64.mul (F64.of_int (59 - 139)) ratio)) in
  let g := F64.to_int (F64.add (F64.of_int 92) (F64.mul (F64.of_int (130 - 92)) ratio)) in
  let b := F64.to_int (F64.add (F64.of_int 246) (F64.mul (F64.of_int (246 - 246)) ratio)) in
  mk_rgba r g b 255.

(** Line 16: the filled rectangle [(0, y), (size, y+1)] of row [y]. *)
Definition row_cmd (size y : Z) : draw_cmd :=
  DrawFill 0 y size (y + 1) (gradient_color size y).

(** Lines 11-16. *)
Definition gradient_cmds (size : Z) : list draw_cmd := map (row_cmd size) (range size).

(** Lines 19-32. *)
Definition padding (size : Z) : Z := F64.to_int (F64.mul (F64.of_int size) F64.lit_0_15).
Definition inner (size : Z) : Z := size - 2 * padding size.
Definition line_width (size : Z) : Z := Z.max 2 (size / 32).
Definition inner_frac (size : Z) (c : Q) : Z :=
  F64.to_int (F64.mul (F64.of_int (inner size)) c).
Definition line_start_x (size : Z) : Z := padding size + inner_frac size F64.lit_0_2.
Definition line_end_x (size : Z) : Z := padding size + inner_frac size F64.lit_0_8.
Definition line1_y (size : Z) : Z := padding size + inner_frac size F64.lit_0_3.
Definition line2_y (size : Z) : Z := padding size + inner_frac size F64.lit_0_5.
Definition line3_y (size : Z) : Z := padding size + inner_frac size F64.lit_0_7.
(** Right end of the third line (line 36). *)
Definition line3_end_x (size : Z) : Z := line_end_x size - inner_frac size F64.lit_0_2.

(** Lines 24 and 34-36. *)
Definition stroke_cmds (size : Z) : list draw_cmd :=
  let p := padding size in
  let lw := line_width size in
  [ DrawOutline p p (size - p) (size - p) white lw;
    DrawLine (line_start_x size) (line1_y size) (line_end_x size) (line1_y size) white lw;
    DrawLine (line_start_x size) (line2_y size) (line_end_x size) (line2_y size) white lw;
    DrawLine (line_start_x size) (line3_y size) (line3_end_x size) (line3_y size) white lw ].

Definition icon_cmds (size : Z) : list draw_cmd := gradient_cmds size ++ stroke_cmds size.

(** [create_icon(size)], and the image after the background loop alone. *)
Definition create_icon line_cover (size : Z) : image :=
  render line_cover (image_new size size transparent) (icon_cmds size).

Definition background line_cover (size : Z) : image :=
  render line_cover (image_new size size transparent) (gradient_cmds size).

(** ** The batch driver (lines 40-52) *)

Local Open Scope string_scope.

(** Decimal digits of a natural number, as in an f-string. *)
Fixpoint digits (fuel : nat) (n : Z) (acc : string) : string :=
  match fuel with
  | O => acc
  | S fuel' =>
      let acc' := String (Ascii.ascii_of_nat (48 + Z.to_nat (n mod 10))%nat) acc in
      if (n <? 10)%Z then acc' else digits fuel' (n / 10)%Z acc'
  end.

Definition str_of_Z (n : Z) : string := digits 20 n EmptyString.

(** A path, as the list of its ['/']-separated components. *)
Definition path := list string.

Definition path_eqb (p q : path) : bool :=
  if list_eq_dec string_dec p q then true else false.

(** A file holds the image PIL encoded into it: PNG is lossless and keeps
    the mode (RGBA) and the size, so a file is identified by its image. *)
Inductive node := Dir | File (img : image).

Inductive event :=
| EMkdir (p : path)
| EWrite (p : path)
| EPrint (s : string).

Inductive py_error :=
| FileExistsError (p : path)
| FileNotFoundError (p : path)
| NotADirectoryError (p : path)
| IsADirectoryError (p : path).

(** The file system, and the trace of the program's effects. *)
Record world := mk_world { fs : path -> option node; trace : list event }.

(** State and exceptions: an exception leaves the effects done so far. *)
Definition M (A : Type) : Type := world -> world * (py_error + A).

Definition ret {A} (a : A) : M A := fun w => (w, inr a).
Definition bind {A B} (m : M A) (k : A -> M B) : M B :=
  fun w => match m w with
           | (w', inl e) => (w', inl e)
           | (w', inr a) => k a w'
           end.
Definition raise {A} (e : py_error) : M A := fun w => (w, inl e).

Notation "x <- m ;; k" := (bind m (fun x => k)) (at level 61, m at next level, right associativity).
Notation "m ;;; k" := (bind m (fun _ => k)) (at level 61, right associativity).

Definition fs_update (f : path -> option node) (p : path) (n : node) : path -> option node :=
  fun q => if path_eqb q p then Some n else f q.

Definition emit (e : event) (w : world) : list event := app (trace w) [e].

(** [os.path.exists(p)]. *)
Definition path_exists (p : path) : M bool :=
  fun w => (w, inr (match fs w p with Some _ => true | None => false end)).

(** [os.makedirs(p)], for a path of one component. *)
Definition makedirs (p : path) : M unit :=
  fun w => match fs w p with
           | Some _ => (w, inl (FileExistsError p))
           | None => (mk_world (fs_update (fs w) p Dir) (emit (EMkdir p) w), inr tt)
           end.

(** [img.save(d/name)]: the parent must be a directory, and the path not
    one. *)
Definition save (d : path) (name : string) (img : image) : M unit :=
  fun w => let p := app d [name] in
           match fs w d with
           | None => (w, inl (FileNotFoundError p))
           | Some (File _) => (w, inl (NotADirectoryError p))
           | Some Dir =>
               match fs w p with
               | Some Dir => (w, inl (IsADirectoryError p))
               | _ => (mk_world (fs_update (fs w) p (File img)) (emit (EWrite p) w), inr tt)
               end
           end.

Definition print (s : string) : M unit :=
  fun w => (mk_world (fs w) (emit (EPrint s) w), inr tt).

Fixpoint for_each {A} (l : list A) (body : A -> M unit) : M unit :=
  match l with
  | [] => ret tt
  | a :: l' => body a ;;; for_each l' body
  end.

Definition icons_dir : path := ["icons"].
Definition sizes : list Z := [16; 48; 128].
Definition icon_name (size : Z) : string := "icon" ++ str_of_Z size ++ ".png".

Definition icon_path (size : Z) : path := app icons_dir [icon_name size].

Section Driver.
Variable line_cover : Z -> Z -> Z -> Z -> Z -> Z -> Z -> bool.

(** The loop body (lines 48-50). *)
Definition icon_step (size : Z) : M unit :=
  let icon := create_icon line_cover size in
  save icons_dir (icon_name size) icon ;;;
  print ("Created " ++ icon_name size).

(** The module body of the script (lines 41-52). *)
Definition main : M unit :=
  b <- path_exists icons_dir ;;
  (if negb b then makedirs icons_dir else ret tt) ;;;
  for_each sizes icon_step ;;;
  print "All icons created successfully!".

(** What a complete run of the loop leaves behind: the three files ... *)
Definition written_fs (f : path -> option node) : path -> option node :=
  fs_update (fs_update (fs_update f
    (icon_path 16) (File (create_icon line_cover 16)))
    (icon_path 48) (File (create_icon line_cover 48)))
    (icon_path 128) (File (create_icon line_cover 128)).

End Driver.

(** ... and the events it emits, with the final message. *)
Definition loop_trace : list event :=
  [EWrite (icon_path 16); EPrint "Created icon16.png";
   EWrite (icon_path 48); EPrint "Created icon48.png";
   EWrite (icon_path 128); EPrint "Created icon128.png";
   EPrint "All icons created successfully!"].

(** A file system in which every entry lies in a directory. *)
Definition wf_fs (f : path -> option node) : Prop :=
  forall p n, p <> [] -> f (app p [n]) <> None -> f p = Some Dir.

(** None of the three output paths is a directory. *)
Definition paths_free (f : path -> option node) : Prop :=
  f (icon_path 16) <> Some Dir /\ f (icon_path 48) <> Some Dir /\ f (icon_path 128) <> Some Dir.

(** An action that only appends events, none of them a directory
    creation. *)
Definition no_mkdir {A} (m : M A) : Prop :=
  forall w, exists l, trace (fst (m w)) = app (trace w) l /\ forall p, ~ In (EMkdir p) l.

(** A rasterisation of PIL's wide horizontal lines (libImaging's
    [ImagingDrawWideLine]), used to instantiate the statements on concrete
    inputs: a horizontal segment of width [w] covers the rows from
    [y0 - (w - 1) / 2] to [y0 + w / 2]; the script draws no other lines. *)
Definition pil_line (x0 y0 x1 y1 w x y : Z) : bool :=
  ((y0 =? y1) && between x x0 x1 && (y0 - (w - 1) / 2 <=? y) && (y <=? y0 + w / 2))%Z.

(** Whether an entry is a directory. *)
Definition is_dir (o : option node) : bool :=
  match o with Some Dir => true | _ => false end.

(** The first size, in the loop's order, whose output path is a directory. *)
Definition first_dir (f : path -> option node) : option Z :=
  find (fun s => is_dir (f (icon_path s))) sizes.

(** The events of one completed iteration of the loop. *)
Definition progress_events (size : Z) : list event :=
  [EWrite (icon_path size); EPrint ("Created " ++ icon_name size)].

(** An action that changes no entry outside the paths [S]. *)
Definition frame {A} (S : list path) (m : M A) : Prop :=
  forall w p, ~ In p S -> fs (fst (m w)) p = fs w p.

(** An action that keeps every entry inside a directory. *)
Definition keeps_wf {A} (m : M A) : Prop :=
  forall w, wf_fs (fs w) -> wf_fs (fs (fst (m w))).

(** The number written by the decimal digits at the head of a string,
    read after the value [v]. *)
Fixpoint read_digits (s : string) (v : Z) : Z :=
  match s with
  | EmptyString => v
  | String c s' =>
      let k := (Z.of_nat (Ascii.nat_of_ascii c) - 48)%Z in
      if ((0 <=? k) && (k <? 10))%Z then read_digits s' (10 * v + k)%Z else v
  end.

(** A file system where [icons/] exists and [icons/icon48.png] is a
    directory. *)
Definition blocked_world : world :=
  mk_world (fs_update (fs_update (fun _ => None) icons_dir Dir) (icon_path 48) Dir) [].

(** The four outermost pixels of a [size x size] canvas. *)
Definition corners (size : Z) : list (Z * Z) :=
  [(0, 0); (size - 1, 0); (0, size - 1); (size - 1, size - 1)].

(** A file system with nothing in it, and one with only [icons/]. *)
Definition empty_world : world := mk_world (fun _ => None) [].
Definition dir_world : world := mk_world (fs_update (fun _ => None) icons_dir Dir) [].

Example f64_check_1 : F64.to_int (F64.mul (F64.of_int 90) F64.lit_0_7) = 62.
Proof. vm_compute. reflexivity. Qed.
Example f64_check_2 : F64.to_int (F64.mul (F64.of_int 128) F64.lit_0_15) = 19.
Proof. vm_compute. reflexivity. Qed.
Example f64_check_3 :
  F64.to_int (F64.add (F64.of_int 139)
    (F64.mul (F64.of_int (59 - 139)) (F64.int_div 127 128))) = 59.
Proof. vm_compute. reflexivity. Qed.
Example geom_128 : (padding 128, line_width 128, line1_y 128, line2_y 128, line3_y 128,
  line_start_x 128, line_end_x 128, line3_end_x 128) = (19, 4, 46, 64, 81, 37, 91, 73).
Proof. vm_compute. reflexivity. Qed.
Example grad_16 : map (fun y => (red (gradient_color 16 y), green (gradient_color 16 y))) [0;1;15]
  = [(139,92);(134,94);(64,127)].
Proof. vm_compute. reflexivity. Qed.
Example names : map icon_name sizes = ["icon16.png"; "icon48.png"; "icon128.png"].
Proof. reflexivity. Qed.

(** ** Facts about the binary64 model *)
Module F64Facts.
Import F64.

Local Open Scope Q_scope.

Lemma inject_Z_1 : inject_Z 1 == 1.
Proof. reflexivity. Qed.

Lemma floor_bounds (s : Q) : inject_Z (Qfloor s) <= s < inject_Z (Qfloor s) + 1.
Proof.
  split; [apply Qfloor_le|].
  rewrite <- inject_Z_1, <- inject_Z_plus. apply Qlt_floor.
Qed.

Lemma rne_bounds (s : Q) :
  inject_Z (rne s) - (1 # 2) <= s <= inject_Z (rne s) + (1 # 2).
Proof.
  unfold rne. pose proof (floor_bounds s) as [H1 H2].
  set (f := Qfloor s) in *.
  destruct (Qcompare_spec (s - inject_Z f) (1 # 2)) as [E|E|E];
    [destruct (Z.even f)|..];
    rewrite ?inject_Z_plus, ?inject_Z_1; lra.
Qed.

Lemma rne_cases (s : Q) :
  (rne s = Qfloor s /\ s - inject_Z (Qfloor s) <= 1 # 2) \/
  (rne s = (Qfloor s + 1)%Z /\ 1 # 2 <= s - inject_Z (Qfloor s)).
Proof.
  unfold rne.
  destruct (Qcompare_spec (s - inject_Z (Qfloor s)) (1 # 2)) as [E|E|E];
    [destruct (Z.even (Qfloor s))|..]; [left|right|left|right]; split; auto; lra.
Qed.

Lemma rne_mono (s1 s2 : Q) : s1 <= s2 -> (rne s1 <= rne s2)%Z.
Proof.
  intros H. pose proof (Qfloor_resp_le _ _ H) as Hf.
  destruct (Z.eq_dec (Qfloor s1) (Qfloor s2)) as [E|E].
  - unfold rne. rewrite E.
    set (f := Qfloor s2) in *.
    destruct (Qcompare_spec (s1 - inject_Z f) (1 # 2)) as [E1|E1|E1];
    destruct (Qcompare_spec (s2 - inject_Z f) (1 # 2)) as [E2|E2|E2];
    try destruct (Z.even f); try lia; lra.
  - destruct (rne_cases s1) as [[R1 _]|[R1 _]];
    destruct (rne_cases s2) as [[R2 _]|[R2 _]]; lia.
Qed.

Lemma rne_near (s : Q) (m : Z) :
  inject_Z m - (1 # 2) < s < inject_Z m + (1 # 2) -> rne s = m.
Proof.
  intros H. pose proof (rne_bounds s) as Hb.
  assert (A1 : inject_Z (rne s) < inject_Z (m + 1)) by (rewrite inject_Z_plus; change (inject_Z 1) with 1; lra).
  assert (A2 : inject_Z m < inject_Z (rne s + 1)) by (rewrite inject_Z_plus; change (inject_Z 1) with 1; lra).
  rewrite <- Zlt_Qlt in A1, A2. lia.
Qed.

Lemma pow2_pos (e : Z) : 0 < pow2 e.
Proof. apply Qpower_0_lt. reflexivity. Qed.

Lemma pow2_add (a b : Z) : pow2 (a + b) == pow2 a * pow2 b.
Proof. apply Qpower_plus. discriminate. Qed.

Lemma pow2_Z (k : Z) : (0 <= k)%Z -> pow2 k == inject_Z (2 ^ k).
Proof. intros Hk. unfold pow2. rewrite Zpower_Qpower by exact Hk. reflexivity. Qed.

Lemma pow2_ge_2 (k : Z) : (1 <= k)%Z -> 2 <= pow2 k.
Proof.
  intros Hk. rewrite pow2_Z by lia.
  assert (H2 : (2 ^ 1 <= 2 ^ k)%Z) by (apply Z.pow_le_mono_r; lia).
  rewrite Zle_Qle in H2. exact H2.
Qed.

Lemma pow2_pred (e : Z) : pow2 e == pow2 (e - 1) * 2.
Proof.
  replace e with ((e - 1) + 1)%Z at 1 by lia. rewrite pow2_add. reflexivity.
Qed.

Lemma Qnum_pos (x : Q) : 0 < x -> (0 < Qnum x)%Z.
Proof. destruct x as [n d]. unfold Qlt. simpl. lia. Qed.

(** The exponent puts a positive rational in the binade of 53-bit
    significands. *)
Lemma exponent_spec (x : Q) : 0 < x ->
  (4503599627370496 # 1) * pow2 (exponent x) <= x /\
  x < (9007199254740992 # 1) * pow2 (exponent x).
Proof.
  intros Hx. pose proof (Qnum_pos x Hx) as Hn.
  destruct x as [n d]. simpl in Hn.
  set (ln := Z.log2 n). set (ld := Z.log2 (Zpos d)).
  pose proof (Z.log2_spec n Hn) as [An1 An2].
  assert (Hd : (0 < Zpos d)%Z) by lia.
  pose proof (Z.log2_spec (Zpos d) Hd) as [Ad1 Ad2].
  fold ln in An1, An2. fold ld in Ad1, Ad2.
  rewrite Z.pow_succ_r in An2, Ad2 by (apply Z.log2_nonneg).
  assert (Hln := Z.log2_nonneg n). assert (Hld := Z.log2_nonneg (Zpos d)).
  fold ln in Hln. fold ld in Hld.
  set (e0 := (ln - ld - 52)%Z).
  assert (HP : pow2 e0 * inject_Z (2 ^ ld) * (4503599627370496 # 1) == inject_Z (2 ^ ln)).
  { rewrite <- !pow2_Z by lia.
    change (4503599627370496 # 1) with (inject_Z (2 ^ 52)). rewrite <- pow2_Z by lia.
    rewrite <- !pow2_add. replace (e0 + ld + 52)%Z with ln by lia. reflexivity. }
  rewrite Zle_Qle in An1, Ad1. rewrite Zlt_Qlt in An2, Ad2.
  rewrite inject_Z_mult in An2, Ad2.
  assert (HxD : (n # d) * inject_Z (Zpos d) == inject_Z n).
  { rewrite Qmake_Qdiv. field. unfold inject_Z. intro E. inversion E. }
  pose proof (pow2_pos e0) as HP0.
  assert (HB0 : 0 < inject_Z (2 ^ ld)).
  { change 0 with (inject_Z 0). rewrite <- Zlt_Qlt. apply Z.pow_pos_nonneg; lia. }
  assert (HD0 : 0 < inject_Z (Zpos d)) by (change 0 with (inject_Z 0); rewrite <- Zlt_Qlt; lia).
  change (inject_Z 2) with (2 # 1) in An2, Ad2.
  assert (L0 : (2251799813685248 # 1) * pow2 e0 < n # d) by nra.
  assert (U0 : n # d < (9007199254740992 # 1) * pow2 e0) by nra.
  unfold exponent. cbn [Qnum Qden]. fold ln ld e0.
  assert (HsP : (n # d) / pow2 e0 * pow2 e0 == n # d).
  { field. intro E. rewrite E in HP0. discriminate. }
  pose proof (floor_bounds ((n # d) / pow2 e0)) as [F1 F2].
  destruct (Qfloor ((n # d) / pow2 e0) <? 2 ^ 52)%Z eqn:E.
  - apply Z.ltb_lt in E.
    assert (E' : (Qfloor ((n # d) / pow2 e0) + 1 <= 2 ^ 52)%Z) by lia.
    rewrite Zle_Qle, inject_Z_plus in E'.
    change (inject_Z (2 ^ 52)) with (4503599627370496 # 1) in E'.
    change (inject_Z 1) with 1 in E'.
    pose proof (pow2_pred e0) as Hpred. pose proof (pow2_pos (e0 - 1)).
    split; nra.
  - apply Z.ltb_ge in E. rewrite Zle_Qle in E.
    change (inject_Z (2 ^ 52)) with (4503599627370496 # 1) in E.
    split; nra.
Qed.

Lemma rne_Z (z : Z) : rne (inject_Z z) = z.
Proof. apply rne_near. lra. Qed.

Lemma div_mul_cancel (x P : Q) : 0 < P -> x / P * P == x.
Proof. intros HP. field. intro E. rewrite E in HP. discriminate. Qed.

Section RoundPos.
Variable x : Q.
Hypothesis Hx : 0 < x.

Let P := pow2 (exponent x).
Let m := rne (x / P).

Lemma round_pos_eq : round_pos x = inject_Z m * P.
Proof. reflexivity. Qed.

Lemma round_pos_near_scaled :
  inject_Z m * P - P * (1 # 2) <= x <= inject_Z m * P + P * (1 # 2).
Proof.
  pose proof (rne_bounds (x / P)) as [B1 B2]. fold m in B1, B2.
  pose proof (pow2_pos (exponent x)) as HP. fold P in HP.
  pose proof (div_mul_cancel x P HP) as C.
  split; nra.
Qed.

(** Relative error at most [2^-53]. *)
Lemma round_pos_err :
  x - x * (1 # 9007199254740992) <= round_pos x <= x + x * (1 # 9007199254740992).
Proof.
  rewrite round_pos_eq. pose proof round_pos_near_scaled as [B1 B2].
  pose proof (exponent_spec x Hx) as [E1 E2]. fold P in E1, E2.
  split; nra.
Qed.

Lemma round_pos_binade :
  (4503599627370496 # 1) * P <= round_pos x <= (9007199254740992 # 1) * P.
Proof.
  rewrite round_pos_eq.
  pose proof (exponent_spec x Hx) as [E1 E2]. fold P in E1, E2.
  pose proof (pow2_pos (exponent x)) as HP. fold P in HP.
  pose proof (div_mul_cancel x P HP) as C.
  assert (S1 : inject_Z (2 ^ 52) <= x / P).
  { change (inject_Z (2 ^ 52)) with (4503599627370496 # 1).
    apply Qle_shift_div_l; [exact HP | nra]. }
  assert (S2 : x / P <= inject_Z (2 ^ 53)).
  { change (inject_Z (2 ^ 53)) with (9007199254740992 # 1).
    apply Qle_shift_div_r; [exact HP | nra]. }
  apply rne_mono in S1, S2. rewrite rne_Z in S1, S2. fold m in S1, S2.
  rewrite Zle_Qle in S1, S2.
  change (inject_Z (2 ^ 52)) with (4503599627370496 # 1) in S1.
  change (inject_Z (2 ^ 53)) with (9007199254740992 # 1) in S2.
  split; nra.
Qed.

Lemma round_pos_pos : 0 < round_pos x.
Proof.
  pose proof round_pos_binade as [B _].
  pose proof (pow2_pos (exponent x)). fold P in H. nra.
Qed.

(** A rational just below a 53-bit integer [K], closer to it than a
    quarter of its last place, rounds to [K]. *)
Lemma round_pos_near_int (K : Z) :
  (K < 2 ^ 53)%Z -> x <= inject_Z K ->
  (inject_Z K - x) * (18014398509481984 # 1) <= x ->
  round_pos x == inject_Z K.
Proof.
  intros HK H1 H2.
  pose proof (exponent_spec x Hx) as [E1 E2]. fold P in E1, E2.
  pose proof (pow2_pos (exponent x)) as HP. fold P in HP.
  rewrite Zlt_Qlt in HK. change (inject_Z (2 ^ 53)) with (9007199254740992 # 1) in HK.
  assert (He : (exponent x <= 0)%Z).
  { destruct (Z_le_gt_dec (exponent x) 0) as [|G]; [assumption|].
    pose proof (pow2_ge_2 (exponent x) ltac:(lia)). fold P in H. nra. }
  set (k := (- exponent x)%Z).
  assert (HPk : P * inject_Z (2 ^ k) == 1).
  { rewrite <- pow2_Z by lia. unfold P. rewrite <- pow2_add.
    replace (exponent x + k)%Z with 0%Z by lia. reflexivity. }
  assert (Hm : m = (K * 2 ^ k)%Z).
  { unfold m. apply rne_near. rewrite inject_Z_mult.
    assert (Hs : x / P == x * inject_Z (2 ^ k)).
    { apply (Qmult_inj_r _ _ P); [intro E; rewrite E in HP; discriminate|].
      rewrite div_mul_cancel by exact HP. nra. }
    rewrite Hs. nra. }
  rewrite round_pos_eq, Hm, inject_Z_mult. nra.
Qed.

End RoundPos.

Lemma round_pos_mono (x1 x2 : Q) : 0 < x1 -> x1 <= x2 -> round_pos x1 <= round_pos x2.
Proof.
  intros H1 H12. assert (H2 : 0 < x2) by lra.
  pose proof (exponent_spec x1 H1) as [A1 B1].
  pose proof (exponent_spec x2 H2) as [A2 B2].
  pose proof (round_pos_binade x1 H1) as [C1 D1].
  pose proof (round_pos_binade x2 H2) as [C2 D2].
  pose proof (pow2_pos (exponent x1)) as P1.
  pose proof (pow2_pos (exponent x2)) as P2.
  set (e1 := exponent x1) in *. set (e2 := exponent x2) in *.
  destruct (Z_dec e1 e2) as [[Hlt|Hgt]|Heq].
  - assert (R : pow2 e2 == pow2 e1 * pow2 (e2 - e1)).
    { rewrite <- pow2_add. replace (e1 + (e2 - e1))%Z with e2 by lia. reflexivity. }
    pose proof (pow2_ge_2 (e2 - e1) ltac:(lia)). nra.
  - exfalso.
    assert (R : pow2 e1 == pow2 e2 * pow2 (e1 - e2)).
    { rewrite <- pow2_add. replace (e2 + (e1 - e2))%Z with e1 by lia. reflexivity. }
    pose proof (pow2_ge_2 (e1 - e2) ltac:(lia)). nra.
  - rewrite (round_pos_eq x1), (round_pos_eq x2). fold e1 e2. rewrite Heq.
    apply Qmult_le_compat_r; [|lra].
    rewrite <- Zle_Qle. apply rne_mono.
    apply Qmult_le_compat_r; [exact H12|].
    apply Qlt_le_weak, Qinv_lt_0_compat. exact P2.
Qed.

Lemma round_of_pos (x : Q) : 0 < x -> round x = round_pos x.
Proof.
  destruct x as [[|n|n] d]; unfold Qlt; simpl; intros H; try lia; reflexivity.
Qed.

Lemma round_of_neg (x : Q) : x < 0 -> round x = - round_pos (- x).
Proof.
  destruct x as [[|n|n] d]; unfold Qlt; simpl; intros H; try lia; reflexivity.
Qed.

Lemma round_of_zero (x : Q) : x == 0 -> round x = 0.
Proof.
  destruct x as [[|n|n] d]; unfold Qeq; simpl; intros H; try lia; reflexivity.
Qed.

Lemma round_mono (x1 x2 : Q) : x1 <= x2 -> round x1 <= round x2.
Proof.
  intros H.
  destruct (Q_dec x1 0) as [[N1|P1]|Z1]; destruct (Q_dec x2 0) as [[N2|P2]|Z2];
    try lra;
    repeat first [ rewrite (round_of_pos x1) by assumption
                 | rewrite (round_of_pos x2) by assumption
                 | rewrite (round_of_neg x1) by assumption
                 | rewrite (round_of_neg x2) by assumption
                 | rewrite (round_of_zero x1) by assumption
                 | rewrite (round_of_zero x2) by assumption ].
  - assert (round_pos (- x2) <= round_pos (- x1)) by (apply round_pos_mono; lra). lra.
  - pose proof (round_pos_pos (- x1) ltac:(lra)). pose proof (round_pos_pos x2 P2). lra.
  - pose proof (round_pos_pos (- x1) ltac:(lra)). lra.
  - apply round_pos_mono; assumption.
  - pose proof (round_pos_pos x2 P2). lra.
  - lra.
Qed.

Lemma round_comp (x1 x2 : Q) : x1 == x2 -> round x1 == round x2.
Proof. intros H. apply Qle_antisym; apply round_mono; lra. Qed.

Lemma round_Z (z : Z) : (Z.abs z < 2 ^ 53)%Z -> round (inject_Z z) == inject_Z z.
Proof.
  intros Hz. destruct (Z_dec z 0) as [[N|Pz]|Z0].
  - rewrite round_of_neg by (change 0 with (inject_Z 0); rewrite <- Zlt_Qlt; exact N).
    rewrite <- inject_Z_opp.
    assert (Hp : 0 < inject_Z (- z)) by (change 0 with (inject_Z 0); rewrite <- Zlt_Qlt; lia).
    assert (E : round_pos (inject_Z (- z)) == inject_Z (- z)).
    { apply round_pos_near_int; [exact Hp | lia | lra | lra]. }
    rewrite E, inject_Z_opp. lra.
  - rewrite round_of_pos by (change 0 with (inject_Z 0); rewrite <- Zlt_Qlt; lia).
    assert (Hp : 0 < inject_Z z) by (change 0 with (inject_Z 0); rewrite <- Zlt_Qlt; lia).
    apply round_pos_near_int; [exact Hp | lia | lra | lra].
  - subst. reflexivity.
Qed.

(** Python-level operations. *)
Lemma of_int_Z (z : Z) : (Z.abs z < 2 ^ 53)%Z -> of_int z == inject_Z z.
Proof. apply round_Z. Qed.

Lemma Qle_0_num (x : Q) : 0 <= x -> (0 <= Qnum x)%Z.
Proof. destruct x as [n d]. unfold Qle. simpl. lia. Qed.

Lemma to_int_floor (x : Q) : 0 <= x -> to_int x = Qfloor x.
Proof.
  intros H. pose proof (Qle_0_num x H). destruct x as [n d]. unfold to_int, Qfloor. simpl in *.
  apply Z.quot_div_nonneg; lia.
Qed.

Lemma to_int_mono (a b : Q) : 0 <= a -> a <= b -> (to_int a <= to_int b)%Z.
Proof.
  intros Ha Hab. rewrite !to_int_floor by lra. apply Qfloor_resp_le. exact Hab.
Qed.

End F64Facts.

(** ** Rendering *)
Local Open Scope Z_scope.

Section RenderFacts.
Variable line_cover : Z -> Z -> Z -> Z -> Z -> Z -> Z -> bool.

Lemma render_app (img : image) (cs1 cs2 : list draw_cmd) :
  render line_cover img (cs1 ++ cs2) = render line_cover (render line_cover img cs1) cs2.
Proof. unfold render. apply fold_left_app. Qed.

Lemma render_dims (cs : list draw_cmd) : forall img,
  width (render line_cover img cs) = width img /\ height (render line_cover img cs) = height img.
Proof.
  induction cs as [|c cs IH]; intros img; simpl; [split; reflexivity|].
  destruct (IH (apply_cmd line_cover img c)) as [W H]. rewrite W, H. split; reflexivity.
Qed.

(** Opaque inks keep an opaque image opaque. *)
Lemma render_opaque (cs : list draw_cmd) : forall img,
  Forall (fun c => alpha (cmd_ink c) = 255) cs -> opaque img ->
  opaque (render line_cover img cs).
Proof.
  induction cs as [|c cs IH]; intros img Hcs Himg; simpl; [exact Himg|].
  inversion Hcs; subst. apply IH; [assumption|].
  intros x y Hin. simpl. unfold in_image in Hin. simpl in Hin.
  destruct (in_image img x y && covers line_cover c x y) eqn:E; [assumption|].
  apply Himg. exact Hin.
Qed.

Ltac zcases :=
  repeat lazymatch goal with
  | |- context [?u =? ?v] => case (Z.eqb_spec u v); intro
  | |- context [?u <? ?v] => case (Z.ltb_spec u v); intro
  | |- context [?u <=? ?v] => case (Z.leb_spec u v); intro
  end; simpl.

(** After the first [n] rows of the loop, rows below [n] carry their colour
    and row [n] the colour of row [n - 1]. *)
Lemma background_prefix (size : Z) (n : nat) : Z.of_nat n <= size ->
  forall x y, 0 <= x < size -> 0 <= y < size ->
  pixel (render line_cover (image_new size size transparent)
           (map (row_cmd size) (map Z.of_nat (seq 0 n)))) x y =
  if y <? Z.of_nat n then gradient_color size y
  else if (y =? Z.of_nat n) && (0 <? Z.of_nat n) then gradient_color size (Z.of_nat n - 1)
  else transparent.
Proof.
  induction n as [|n IH]; intros Hn x y Hx Hy.
  - simpl. zcases; first [reflexivity | lia].
  - rewrite Nat2Z.inj_succ in *. unfold Z.succ in *.
    rewrite seq_S, !map_app, render_app. simpl.
    destruct (render_dims (map (row_cmd size) (map Z.of_nat (seq 0 n)))
                (image_new size size transparent)) as [W H].
    unfold in_image. rewrite W, H. simpl.
    rewrite IH by lia.
    zcases; try lia; try reflexivity; f_equal; lia.
Qed.

Lemma background_pixel (size x y : Z) : 0 <= x < size -> 0 <= y < size ->
  pixel (background line_cover size) x y = gradient_color size y.
Proof.
  intros Hx Hy. unfold background, gradient_cmds, range.
  rewrite background_prefix by lia.
  rewrite Z2Nat.id by lia. zcases; first [reflexivity | lia].
Qed.

Lemma background_opaque (size : Z) : opaque (background line_cover size).
Proof.
  intros x y Hin. unfold in_image in Hin.
  destruct (render_dims (gradient_cmds size) (image_new size size transparent)) as [W H].
  fold (background line_cover size) in W, H. rewrite W, H in Hin. simpl in Hin.
  rewrite background_pixel; [reflexivity| |]; zcases; try discriminate; lia.
Qed.

Lemma create_icon_opaque (size : Z) : opaque (create_icon line_cover size).
Proof.
  unfold create_icon, icon_cmds. rewrite render_app.
  apply render_opaque; [|apply background_opaque].
  repeat constructor.
Qed.

Lemma create_icon_dims (size : Z) :
  width (create_icon line_cover size) = size /\ height (create_icon line_cover size) = size.
Proof. apply render_dims. Qed.

Lemma create_icon_alpha (size x y : Z) : 0 <= x < size -> 0 <= y < size ->
  alpha (pixel (create_icon line_cover size) x y) = 255.
Proof.
  intros Hx Hy. apply create_icon_opaque.
  destruct (create_icon_dims size) as [W H]. unfold in_image. rewrite W, H.
  zcases; try reflexivity; lia.
Qed.

End RenderFacts.

(** ** The background gradient *)
Module GradientFacts.
Import F64 F64Facts.
Local Open Scope Q_scope.

Lemma round_1 : round 1 == 1.
Proof. reflexivity. Qed.

Lemma ratio_bounds (size y : Z) : (0 < size)%Z -> (0 <= y < size)%Z ->
  0 <= int_div y size <= 1.
Proof.
  intros Hs Hy. unfold int_div.
  assert (S0 : 0 < inject_Z size) by (change 0 with (inject_Z 0); rewrite <- Zlt_Qlt; lia).
  assert (Y0 : 0 <= inject_Z y) by (change 0 with (inject_Z 0); rewrite <- Zle_Qle; lia).
  assert (Y1 : inject_Z y <= inject_Z size) by (rewrite <- Zle_Qle; lia).
  split.
  - change 0 with (round 0) at 1. apply round_mono.
    apply Qle_shift_div_l; [exact S0|lra].
  - rewrite <- round_1. apply round_mono.
    apply Qle_shift_div_r; [exact S0|lra].
Qed.

Lemma ratio_mono (size y1 y2 : Z) : (0 < size)%Z -> (y1 <= y2)%Z ->
  int_div y1 size <= int_div y2 size.
Proof.
  intros Hs Hy. unfold int_div. apply round_mono.
  assert (S0 : 0 < inject_Z size) by (change 0 with (inject_Z 0); rewrite <- Zlt_Qlt; lia).
  rewrite Zle_Qle in Hy.
  apply Qmult_le_compat_r; [exact Hy|].
  apply Qlt_le_weak, Qinv_lt_0_compat. exact S0.
Qed.

(** [a + c * q] in binary64 grows with [q] when [c >= 0] ... *)
Lemma lin_up (a c : Z) (q1 q2 : Q) : (0 <= c < 2 ^ 53)%Z -> q1 <= q2 ->
  add (of_int a) (mul (of_int c) q1) <= add (of_int a) (mul (of_int c) q2).
Proof.
  intros Hc Hq. unfold add, mul. apply round_mono.
  apply Qplus_le_r. apply round_mono.
  pose proof (of_int_Z c ltac:(lia)) as E.
  assert (C0 : 0 <= inject_Z c) by (change 0 with (inject_Z 0); rewrite <- Zle_Qle; lia).
  nra.
Qed.

(** ... and shrinks when [c <= 0]. *)
Lemma lin_down (a c : Z) (q1 q2 : Q) : (- 2 ^ 53 < c <= 0)%Z -> q1 <= q2 ->
  add (of_int a) (mul (of_int c) q2) <= add (of_int a) (mul (of_int c) q1).
Proof.
  intros Hc Hq. unfold add, mul. apply round_mono.
  apply Qplus_le_r. apply round_mono.
  pose proof (of_int_Z c ltac:(lia)) as E.
  assert (C0 : inject_Z c <= 0) by (change 0 with (inject_Z 0); rewrite <- Zle_Qle; lia).
  nra.
Qed.

Lemma red_value (size y : Z) :
  red (gradient_color size y) =
  to_int (add (of_int 139) (mul (of_int (59 - 139)) (int_div y size))).
Proof. reflexivity. Qed.

Lemma green_value (size y : Z) :
  green (gradient_color size y) =
  to_int (add (of_int 92) (mul (of_int (130 - 92)) (int_div y size))).
Proof. reflexivity. Qed.

Lemma red_arg_bounds (q : Q) : 0 <= q <= 1 ->
  59 <= add (of_int 139) (mul (of_int (59 - 139)) q) <= 139.
Proof.
  intros [H0 H1].
  pose proof (lin_down 139 (59 - 139) q 1 ltac:(lia) H1) as A.
  pose proof (lin_down 139 (59 - 139) 0 q ltac:(lia) H0) as B.
  assert (E1 : add (of_int 139) (mul (of_int (59 - 139)) 1) == 59) by reflexivity.
  assert (E0 : add (of_int 139) (mul (of_int (59 - 139)) 0) == 139) by reflexivity.
  lra.
Qed.

Lemma green_arg_bounds (q : Q) : 0 <= q <= 1 ->
  92 <= add (of_int 92) (mul (of_int (130 - 92)) q) <= 130.
Proof.
  intros [H0 H1].
  pose proof (lin_up 92 (130 - 92) q 1 ltac:(lia) H1) as A.
  pose proof (lin_up 92 (130 - 92) 0 q ltac:(lia) H0) as B.
  assert (E1 : add (of_int 92) (mul (of_int (130 - 92)) 1) == 130) by reflexivity.
  assert (E0 : add (of_int 92) (mul (of_int (130 - 92)) 0) == 92) by reflexivity.
  lra.
Qed.

Lemma blue_value (size y : Z) : blue (gradient_color size y) = 246%Z.
Proof.
  change (blue (gradient_color size y))
    with (to_int (add (of_int 246) (mul (of_int (246 - 246)) (int_div y size)))).
  assert (E : mul (of_int (246 - 246)) (int_div y size) = 0).
  { unfold mul. apply round_of_zero. change (of_int (246 - 246)) with 0. ring. }
  rewrite E. reflexivity.
Qed.

Lemma gradient_row0 (size : Z) : gradient_color size 0 = mk_rgba 139 92 246 255.
Proof.
  assert (R : int_div 0 size = 0).
  { unfold int_div. apply round_of_zero. unfold Qdiv. ring. }
  unfold gradient_color. cbv zeta. rewrite R. reflexivity.
Qed.

End GradientFacts.

(** ** Geometry *)
Module GeometryFacts.
Import F64 F64Facts.
Local Open Scope Q_scope.

Lemma to_int_between (q : Q) (K : Z) :
  inject_Z K <= q -> q < inject_Z (K + 1) -> (0 <= K)%Z -> to_int q = K.
Proof.
  intros H1 H2 HK.
  assert (Q0 : 0 <= q).
  { apply (Qle_trans _ (inject_Z K)); [|exact H1].
    change 0 with (inject_Z 0). rewrite <- Zle_Qle. exact HK. }
  rewrite to_int_floor by exact Q0.
  apply Qfloor_resp_le in H1. rewrite Qfloor_Z in H1.
  pose proof (Qfloor_le q) as F.
  assert (F2 : inject_Z (Qfloor q) < inject_Z (K + 1)) by (eapply Qle_lt_trans; eauto).
  rewrite <- Zlt_Qlt in F2. lia.
Qed.

Section Scaled.
Variables (n a b : Z) (c : Q).
Hypothesis Hn : (0 <= n < 2 ^ 53)%Z.
Hypothesis Hb : (0 < b)%Z.
Hypothesis Hc : 0 < c.
Hypothesis Hab : (0 <= a <= b)%Z.

Let K := (n * a / b)%Z.
Let x := of_int n * c.

Lemma scaled_eq : x == inject_Z n * c.
Proof. unfold x. rewrite of_int_Z by lia. reflexivity. Qed.

Lemma scaled_K : (b * K <= n * a < b * K + b)%Z.
Proof.
  unfold K. pose proof (Z.div_mod (n * a) b ltac:(lia)).
  pose proof (Z.mod_pos_bound (n * a) b Hb). lia.
Qed.

Lemma scaled_K_range : (0 <= K <= n)%Z.
Proof. pose proof scaled_K. nia. Qed.

Lemma scaled_upper :
  inject_Z b * (inject_Z n * c * (1 + u53)) < inject_Z (n * a + 1) ->
  round x < inject_Z (K + 1).
Proof.
  intros H. pose proof scaled_eq as E. pose proof scaled_K as [K1 K2].
  assert (Kb : (n * a + 1 <= b * (K + 1))%Z) by lia.
  rewrite Zle_Qle, inject_Z_mult in Kb.
  assert (B0 : 0 < inject_Z b) by (change 0 with (inject_Z 0); rewrite <- Zlt_Qlt; lia).
  destruct (Z.eq_dec n 0) as [N0|N0].
  - assert (X0 : x == 0) by (rewrite E, N0; ring).
    rewrite (round_of_zero x X0).
    pose proof scaled_K_range as K0.
    change 0 with (inject_Z 0). rewrite <- Zlt_Qlt. lia.
  - assert (N1 : 0 < inject_Z n) by (change 0 with (inject_Z 0); rewrite <- Zlt_Qlt; lia).
    assert (X0 : 0 < x) by (rewrite E; apply Qmult_lt_0_compat; assumption).
    rewrite round_of_pos by exact X0.
    pose proof (round_pos_err x X0) as [_ R]. unfold u53 in H. nra.
Qed.

Lemma scaled_lower_above :
  inject_Z (n * a) <= inject_Z b * (inject_Z n * c) -> inject_Z K <= round x.
Proof.
  intros H. pose proof scaled_eq as E. pose proof scaled_K as [K1 K2].
  assert (B0 : 0 < inject_Z b) by (change 0 with (inject_Z 0); rewrite <- Zlt_Qlt; lia).
  assert (KQ : inject_Z b * inject_Z K <= inject_Z (n * a))
    by (rewrite <- inject_Z_mult, <- Zle_Qle; lia).
  assert (KZ : (Z.abs K < 2 ^ 53)%Z) by (pose proof scaled_K_range; lia).
  rewrite <- (round_Z K KZ). apply round_mono. nra.
Qed.

Lemma scaled_lower_apart :
  (n * a mod b <> 0)%Z ->
  inject_Z (n * a - 1) <= inject_Z b * (inject_Z n * c * (1 - u53)) ->
  inject_Z K <= round x.
Proof.
  intros Hm H. pose proof scaled_eq as E. pose proof scaled_K as [K1 K2].
  assert (Kb : (b * K <= n * a - 1)%Z).
  { pose proof (Z.div_mod (n * a) b ltac:(lia)).
    pose proof (Z.mod_pos_bound (n * a) b Hb). unfold K. lia. }
  rewrite Zle_Qle, inject_Z_mult in Kb.
  assert (B0 : 0 < inject_Z b) by (change 0 with (inject_Z 0); rewrite <- Zlt_Qlt; lia).
  assert (N0 : n <> 0%Z) by (intro; subst; rewrite Z.mul_0_l, Z.mod_0_l in Hm; lia).
  assert (N1 : 0 < inject_Z n) by (change 0 with (inject_Z 0); rewrite <- Zlt_Qlt; lia).
  assert (X0 : 0 < x) by (rewrite E; apply Qmult_lt_0_compat; assumption).
  rewrite round_of_pos by exact X0.
  pose proof (round_pos_err x X0) as [R _]. unfold u53 in H. nra.
Qed.

Lemma scaled_lower_near :
  (n * a mod b = 0)%Z -> (0 < n)%Z ->
  inject_Z b * (inject_Z n * c) <= inject_Z (n * a) ->
  (inject_Z (n * a) - inject_Z b * (inject_Z n * c)) * (18014398509481984 # 1)
    <= inject_Z b * (inject_Z n * c) ->
  inject_Z K <= round x.
Proof.
  intros Hm Hn0 H1 H2. pose proof scaled_eq as E.
  assert (Kb : (b * K = n * a)%Z).
  { pose proof (Z.div_mod (n * a) b ltac:(lia)). unfold K. lia. }
  assert (B0 : 0 < inject_Z b) by (change 0 with (inject_Z 0); rewrite <- Zlt_Qlt; lia).
  assert (KQ : inject_Z b * inject_Z K == inject_Z (n * a))
    by (rewrite <- inject_Z_mult, Kb; reflexivity).
  assert (N1 : 0 < inject_Z n) by (change 0 with (inject_Z 0); rewrite <- Zlt_Qlt; lia).
  assert (X0 : 0 < x) by (rewrite E; apply Qmult_lt_0_compat; assumption).
  assert (KZ : (K < 2 ^ 53)%Z) by (pose proof scaled_K_range; lia).
  rewrite round_of_pos by exact X0.
  rewrite (round_pos_near_int x X0 K KZ); [lra| |].
  - rewrite E. nra.
  - rewrite E. nra.
Qed.

Lemma scaled_lower_weak :
  inject_Z (n * a - b) <= inject_Z b * (inject_Z n * c * (1 - u53)) ->
  inject_Z (K - 1) <= round x.
Proof.
  intros H. pose proof scaled_eq as E. pose proof scaled_K as [K1 K2].
  pose proof scaled_K_range as KR.
  assert (B0 : 0 < inject_Z b) by (change 0 with (inject_Z 0); rewrite <- Zlt_Qlt; lia).
  destruct (Z.eq_dec n 0) as [N0|N0].
  - assert (X0 : x == 0) by (rewrite E, N0; ring).
    rewrite (round_of_zero x X0). change 0 with (inject_Z 0). rewrite <- Zle_Qle. lia.
  - assert (Kb : (b * (K - 1) <= n * a - b)%Z) by lia.
    rewrite Zle_Qle, inject_Z_mult in Kb.
    assert (N1 : 0 < inject_Z n) by (change 0 with (inject_Z 0); rewrite <- Zlt_Qlt; lia).
    assert (X0 : 0 < x) by (rewrite E; apply Qmult_lt_0_compat; assumption).
    rewrite round_of_pos by exact X0.
    pose proof (round_pos_err x X0) as [R _]. unfold u53 in H. nra.
Qed.

Lemma round_x_nonneg : 0 <= round x.
Proof.
  pose proof scaled_eq as E.
  change 0 with (round 0). apply round_mono. rewrite E.
  apply Qmult_le_0_compat; [|lra].
  change 0 with (inject_Z 0). rewrite <- Zle_Qle. lia.
Qed.

(** [int(n * c)] is [n * a // b] ... *)
Lemma trunc_exact :
  inject_Z K <= round x -> round x < inject_Z (K + 1) ->
  to_int (mul (of_int n) c) = K.
Proof.
  intros H1 H2. apply to_int_between; [exact H1 | exact H2 |].
  pose proof scaled_K_range. lia.
Qed.

(** ... or one less. *)
Lemma trunc_weak :
  inject_Z (K - 1) <= round x -> round x < inject_Z (K + 1) ->
  (K - 1 <= to_int (mul (of_int n) c) <= K)%Z.
Proof.
  intros H1 H2. unfold mul. fold x.
  rewrite to_int_floor by apply round_x_nonneg.
  apply Qfloor_resp_le in H1. rewrite Qfloor_Z in H1.
  pose proof (Qfloor_le (round x)) as F.
  assert (F2 : inject_Z (Qfloor (round x)) < inject_Z (K + 1)) by (eapply Qle_lt_trans; eauto).
  rewrite <- Zlt_Qlt in F2. lia.
Qed.

End Scaled.

Lemma inject_Z_sub (p q : Z) : inject_Z (p - q) == inject_Z p - inject_Z q.
Proof. unfold Qeq. simpl. lia. Qed.

Ltac qbounds n :=
  let N0 := fresh "N0" in let N1 := fresh "N1" in
  assert (N0 : 0 <= inject_Z n) by (change 0 with (inject_Z 0); rewrite <- Zle_Qle; lia);
  assert (N1 : inject_Z n <= 2147483648 # 1)
    by (change (2147483648 # 1) with (inject_Z (2 ^ 31)); rewrite <- Zle_Qle; lia).

Ltac qsolve n :=
  rewrite ?inject_Z_plus, ?inject_Z_sub, ?inject_Z_mult;
  let N := fresh "N" in set (N := inject_Z n) in *;
  unfold inject_Z, u53, lit_0_15, lit_0_2, lit_0_8, lit_0_3, lit_0_5, lit_0_7 in *;
  lra.

Ltac lits := unfold lit_0_15, lit_0_2, lit_0_8, lit_0_3, lit_0_5, lit_0_7; lra.

(** The double literal is below the decimal: exact truncation as long as
    the product stays within a quarter ulp of the integers it hits. *)
Ltac trunc_below n a b :=
  qbounds n;
  apply trunc_exact; try lia;
  [ destruct (Z.eq_dec n 0) as [Z0|Z0];
    [ subst n; vm_compute; intro; discriminate
    | destruct (Z.eq_dec ((n * a) mod b) 0) as [D|D];
      [ apply scaled_lower_near; try lia; try lits; qsolve n
      | apply scaled_lower_apart; try lia; try lits; qsolve n ] ]
  | apply scaled_upper; try lia; try lits; qsolve n ].

(** The double literal is at or above the decimal. *)
Ltac trunc_above n :=
  qbounds n;
  apply trunc_exact; try lia;
  [ apply scaled_lower_above; try lia; try lits; qsolve n
  | apply scaled_upper; try lia; try lits; qsolve n ].

Lemma trunc_0_15 (n : Z) : (0 <= n <= 2 ^ 31)%Z ->
  to_int (mul (of_int n) lit_0_15) = (n * 15 / 100)%Z.
Proof. intros Hn. trunc_below n 15%Z 100%Z. Qed.

Lemma trunc_0_3 (n : Z) : (0 <= n <= 2 ^ 31)%Z ->
  to_int (mul (of_int n) lit_0_3) = (n * 3 / 10)%Z.
Proof. intros Hn. trunc_below n 3%Z 10%Z. Qed.

Lemma trunc_0_2 (n : Z) : (0 <= n <= 2 ^ 31)%Z ->
  to_int (mul (of_int n) lit_0_2) = (n * 2 / 10)%Z.
Proof. intros Hn. trunc_above n. Qed.

Lemma trunc_0_8 (n : Z) : (0 <= n <= 2 ^ 31)%Z ->
  to_int (mul (of_int n) lit_0_8) = (n * 8 / 10)%Z.
Proof. intros Hn. trunc_above n. Qed.

Lemma trunc_0_5 (n : Z) : (0 <= n <= 2 ^ 31)%Z ->
  to_int (mul (of_int n) lit_0_5) = (n * 5 / 10)%Z.
Proof. intros Hn. trunc_above n. Qed.

(** The literal [0.7] sits too far below [7/10] for the quarter-ulp
    argument: the truncation may lose one where [7 n / 10] is an integer. *)
Lemma trunc_0_7 (n : Z) : (0 <= n <= 2 ^ 31)%Z ->
  (n * 7 / 10 - 1 <= to_int (mul (of_int n) lit_0_7) <= n * 7 / 10)%Z /\
  ((n * 7) mod 10 <> 0%Z -> to_int (mul (of_int n) lit_0_7) = (n * 7 / 10)%Z).
Proof.
  intros Hn. qbounds n. split.
  - apply trunc_weak; try lia; try lits.
    + apply scaled_lower_weak; try lia; try lits; qsolve n.
    + apply scaled_upper; try lia; try lits; qsolve n.
  - intros D. apply trunc_exact; try lia; try lits.
    + apply scaled_lower_apart; try lia; try lits; qsolve n.
    + apply scaled_upper; try lia; try lits; qsolve n.
Qed.

Lemma padding_exact (size : Z) : (0 <= size <= 2 ^ 31)%Z ->
  padding size = (size * 15 / 100)%Z.
Proof. intros H. unfold padding. apply trunc_0_15. exact H. Qed.

Lemma inner_range (size : Z) : (0 <= size <= 2 ^ 31)%Z ->
  (0 <= inner size <= size)%Z.
Proof.
  intros H. unfold inner. rewrite padding_exact by exact H.
  pose proof (Z.div_mod (size * 15) 100 ltac:(lia)).
  pose proof (Z.mod_pos_bound (size * 15) 100 ltac:(lia)). lia.
Qed.

End GeometryFacts.

(** ** The driver *)
Module DriverFacts.
Local Open Scope string_scope.

Lemma path_eqb_refl (p : path) : path_eqb p p = true.
Proof. unfold path_eqb. destruct (list_eq_dec string_dec p p); congruence. Qed.

Lemma fs_update_eq (f : path -> option node) (p : path) (n : node) :
  fs_update f p n p = Some n.
Proof. unfold fs_update. rewrite path_eqb_refl. reflexivity. Qed.

Lemma fs_update_neq (f : path -> option node) (p q : path) (n : node) :
  q <> p -> fs_update f p n q = f q.
Proof.
  intros H. unfold fs_update, path_eqb.
  destruct (list_eq_dec string_dec q p); congruence.
Qed.

Lemma fs_update_same (f : path -> option node) (p q : path) (n : node) :
  f p = Some n -> fs_update f p n q = f q.
Proof.
  intros H. unfold fs_update, path_eqb.
  destruct (list_eq_dec string_dec q p); congruence.
Qed.

Lemma icon_paths_distinct :
  icon_path 16 <> icon_path 48 /\ icon_path 16 <> icon_path 128 /\
  icon_path 48 <> icon_path 128 /\
  icons_dir <> icon_path 16 /\ icons_dir <> icon_path 48 /\ icons_dir <> icon_path 128.
Proof. repeat split; discriminate. Qed.

Section Run.
Variable line_cover : Z -> Z -> Z -> Z -> Z -> Z -> Z -> bool.

Lemma save_ok (w : world) (d : path) (name : string) (img : image) :
  fs w d = Some Dir -> fs w (app d [name]) <> Some Dir ->
  save d name img w =
  (mk_world (fs_update (fs w) (app d [name]) (File img)) (app (trace w) [EWrite (app d [name])]),
   inr tt).
Proof.
  intros H1 H2. unfold save. rewrite H1.
  destruct (fs w (app d [name])) as [[|]|]; [congruence|reflexivity|reflexivity].
Qed.

Lemma bind_inr {A B} (m : M A) (k : A -> M B) (w w' : world) (a : A) :
  m w = (w', inr a) -> bind m k w = k a w'.
Proof. intros H. unfold bind. rewrite H. reflexivity. Qed.

Lemma icon_step_ok (w : world) (size : Z) :
  fs w icons_dir = Some Dir -> fs w (icon_path size) <> Some Dir ->
  icon_step line_cover size w =
  (mk_world (fs_update (fs w) (icon_path size) (File (create_icon line_cover size)))
     (app (trace w) [EWrite (icon_path size); EPrint ("Created " ++ icon_name size)]),
   inr tt).
Proof.
  intros H1 H2. unfold icon_step, bind. rewrite save_ok by assumption.
  unfold print, emit. simpl. rewrite <- app_assoc. reflexivity.
Qed.

(** The loop and the final message, when the directory is in place. *)
Lemma loop_ok (w : world) :
  fs w icons_dir = Some Dir -> paths_free (fs w) ->
  (for_each sizes (icon_step line_cover) ;;; print "All icons created successfully!") w =
  (mk_world (written_fs line_cover (fs w)) (app (trace w) loop_trace), inr tt).
Proof.
  intros Hd [F16 [F48 F128]].
  pose proof icon_paths_distinct as (D1 & D2 & D3 & D4 & D5 & D6).
  unfold sizes. cbn [for_each].
  pose proof (icon_step_ok w 16 Hd F16) as S1.
  set (w1 := mk_world _ _) in S1.
  assert (S2 := icon_step_ok w1 48).
  assert (H1 : fs w1 icons_dir = Some Dir) by (simpl; rewrite fs_update_neq by congruence; exact Hd).
  assert (H2 : fs w1 (icon_path 48) <> Some Dir) by (simpl; rewrite fs_update_neq by congruence; exact F48).
  specialize (S2 H1 H2). set (w2 := mk_world _ _) in S2.
  assert (S3 := icon_step_ok w2 128).
  assert (H3 : fs w2 icons_dir = Some Dir) by (simpl; rewrite !fs_update_neq by congruence; exact Hd).
  assert (H4 : fs w2 (icon_path 128) <> Some Dir) by (simpl; rewrite !fs_update_neq by congruence; exact F128).
  specialize (S3 H3 H4). set (w3 := mk_world _ _) in S3.
  assert (L : (icon_step line_cover 16 ;;; icon_step line_cover 48 ;;;
               icon_step line_cover 128 ;;; ret tt) w = (w3, inr tt)).
  { erewrite bind_inr; [|exact S1]. erewrite bind_inr; [|exact S2].
    erewrite bind_inr; [|exact S3]. reflexivity. }
  erewrite bind_inr; [|exact L].
  unfold print, emit, w3, w2, w1. cbn [fs trace].
  unfold loop_trace, written_fs. rewrite <- !app_assoc. reflexivity.
Qed.

Lemma main_none (w : world) :
  fs w icons_dir = None -> paths_free (fs w) ->
  main line_cover w =
  (mk_world (written_fs line_cover (fs_update (fs w) icons_dir Dir))
     (app (trace w) (EMkdir icons_dir :: loop_trace)), inr tt).
Proof.
  intros H [F16 [F48 F128]].
  pose proof icon_paths_distinct as (D1 & D2 & D3 & D4 & D5 & D6).
  unfold main. erewrite bind_inr; [|unfold path_exists; rewrite H; reflexivity].
  cbn [negb]. erewrite bind_inr; [|unfold makedirs; rewrite H; reflexivity].
  rewrite loop_ok; cbn [fs trace].
  - unfold emit. cbn [trace]. rewrite <- app_assoc. reflexivity.
  - apply fs_update_eq.
  - repeat split; rewrite fs_update_neq by congruence; assumption.
Qed.

Lemma main_dir (w : world) :
  fs w icons_dir = Some Dir -> paths_free (fs w) ->
  main line_cover w =
  (mk_world (written_fs line_cover (fs w)) (app (trace w) loop_trace), inr tt).
Proof.
  intros H F.
  unfold main. erewrite bind_inr; [|unfold path_exists; rewrite H; reflexivity].
  cbn [negb]. erewrite bind_inr; [|reflexivity].
  apply loop_ok; assumption.
Qed.

Lemma main_file (w : world) (img : image) :
  fs w icons_dir = Some (File img) ->
  main line_cover w = (w, inl (NotADirectoryError (icon_path 16))).
Proof.
  intros H.
  unfold main. erewrite bind_inr; [|unfold path_exists; rewrite H; reflexivity].
  cbn [negb]. erewrite bind_inr; [|reflexivity].
  unfold sizes. cbn [for_each]. unfold bind at 1. unfold bind at 1.
  unfold icon_step, bind at 1. unfold save at 1. rewrite H. reflexivity.
Qed.

Lemma no_mkdir_ret {A} (a : A) : no_mkdir (ret a).
Proof. intros w. exists []. rewrite app_nil_r. split; [reflexivity | intros p []]. Qed.

Lemma no_mkdir_bind {A B} (m : M A) (k : A -> M B) :
  no_mkdir m -> (forall a, no_mkdir (k a)) -> no_mkdir (bind m k).
Proof.
  intros Hm Hk w. unfold bind.
  destruct (Hm w) as [l1 [T1 N1]].
  destruct (m w) as [w' [e|a]]; cbn [fst] in *.
  - exists l1. split; assumption.
  - destruct (Hk a w') as [l2 [T2 N2]]. exists (app l1 l2).
    rewrite T2, T1, app_assoc. split; [reflexivity|].
    intros p Hin. apply in_app_or in Hin. destruct Hin as [Hin|Hin]; [eapply N1|eapply N2]; eauto.
Qed.

Lemma no_mkdir_save (d : path) (name : string) (img : image) : no_mkdir (save d name img).
Proof.
  intros w. unfold save.
  destruct (fs w d) as [[|f]|]; cbn [fst];
    try (exists []; rewrite app_nil_r; split; [reflexivity | intros p []]).
  destruct (fs w (app d [name])) as [[|f]|]; cbn [fst];
    try (exists []; rewrite app_nil_r; split; [reflexivity | intros p []]);
    (eexists; split; [reflexivity | intros p [E|[]]; discriminate E]).
Qed.

Lemma no_mkdir_print (s : string) : no_mkdir (print s).
Proof. intros w. eexists. split; [reflexivity | intros p [E|[]]; discriminate E]. Qed.

Lemma no_mkdir_for_each {A} (l : list A) (body : A -> M unit) :
  (forall a, no_mkdir (body a)) -> no_mkdir (for_each l body).
Proof.
  intros Hb. induction l as [|a l IH]; cbn [for_each].
  - apply no_mkdir_ret.
  - apply no_mkdir_bind; [apply Hb | intros _; exact IH].
Qed.

Lemma no_mkdir_loop :
  no_mkdir (for_each sizes (icon_step line_cover) ;;; print "All icons created successfully!").
Proof.
  apply no_mkdir_bind; [|intros _; apply no_mkdir_print].
  apply no_mkdir_for_each. intros size. unfold icon_step.
  apply no_mkdir_bind; [apply no_mkdir_save | intros _; apply no_mkdir_print].
Qed.

Lemma bind_inv {A B} (m : M A) (k : A -> M B) (w w' : world) (b : B) :
  bind m k w = (w', inr b) -> exists w1 a, m w = (w1, inr a) /\ k a w1 = (w', inr b).
Proof.
  unfold bind. destruct (m w) as [w1 [e|a]]; intros H; [discriminate H|eauto].
Qed.

Lemma icon_step_inr (w w' : world) (size : Z) :
  fs w icons_dir = Some Dir -> icon_step line_cover size w = (w', inr tt) ->
  fs w (icon_path size) <> Some Dir /\
  w' = mk_world (fs_update (fs w) (icon_path size) (File (create_icon line_cover size)))
         (app (trace w) [EWrite (icon_path size); EPrint ("Created " ++ icon_name size)]).
Proof.
  intros Hd H.
  assert (F : fs w (icon_path size) <> Some Dir).
  { intros E. unfold icon_step, bind, save in H. rewrite Hd in H.
    change (app icons_dir [icon_name size]) with (icon_path size) in H.
    rewrite E in H. discriminate H. }
  split; [exact F|].
  rewrite icon_step_ok in H by assumption. congruence.
Qed.

(** A successful loop found no directory at the three output paths. *)
Lemma loop_free (w w' : world) :
  fs w icons_dir = Some Dir ->
  (for_each sizes (icon_step line_cover) ;;; print "All icons created successfully!") w
    = (w', inr tt) ->
  paths_free (fs w).
Proof.
  intros Hd E.
  pose proof icon_paths_distinct as (D1 & D2 & D3 & D4 & D5 & D6).
  unfold sizes in E. cbn [for_each] in E.
  apply bind_inv in E as (w1 & [] & E1 & _).
  apply bind_inv in E1 as (wa & [] & S1 & E1).
  apply icon_step_inr in S1 as [F16 ->]; [|exact Hd].
  apply bind_inv in E1 as (wb & [] & S2 & E1).
  apply icon_step_inr in S2 as [F48 ->]; [|simpl; rewrite fs_update_neq by congruence; exact Hd].
  apply bind_inv in E1 as (wc & [] & S3 & _).
  apply icon_step_inr in S3 as [F128 _];
    [|simpl; rewrite !fs_update_neq by congruence; exact Hd].
  simpl in F48, F128. rewrite fs_update_neq in F48 by congruence.
  rewrite !fs_update_neq in F128 by congruence.
  repeat split; assumption.
Qed.

(** A successful run started from no entry or a directory at [icons],
    and no directory at the output paths. *)
Lemma main_inr (w w' : world) :
  main line_cover w = (w', inr tt) ->
  (fs w icons_dir = None \/ fs w icons_dir = Some Dir) /\ paths_free (fs w).
Proof.
  intros H.
  pose proof icon_paths_distinct as (D1 & D2 & D3 & D4 & D5 & D6).
  destruct (fs w icons_dir) as [[|img]|] eqn:Hd.
  - split; [right; reflexivity|].
    unfold main in H. erewrite bind_inr in H; [|unfold path_exists; rewrite Hd; reflexivity].
    cbn [negb] in H. erewrite bind_inr in H; [|reflexivity].
    eapply loop_free; eassumption.
  - rewrite (main_file w img Hd) in H. discriminate H.
  - split; [left; reflexivity|].
    unfold main in H. erewrite bind_inr in H; [|unfold path_exists; rewrite Hd; reflexivity].
    cbn [negb] in H. erewrite bind_inr in H; [|unfold makedirs; rewrite Hd; reflexivity].
    apply loop_free in H; [|apply fs_update_eq].
    destruct H as (F16 & F48 & F128). cbn [fs] in *.
    rewrite fs_update_neq in F16, F48, F128 by congruence.
    repeat split; assumption.
Qed.

Lemma written_fs_dir (f : path -> option node) :
  written_fs line_cover f icons_dir = f icons_dir.
Proof.
  pose proof icon_paths_distinct as (D1 & D2 & D3 & D4 & D5 & D6).
  unfold written_fs. rewrite !fs_update_neq by congruence. reflexivity.
Qed.

Lemma written_fs_files (f : path -> option node) (size : Z) : In size sizes ->
  written_fs line_cover f (icon_path size) = Some (File (create_icon line_cover size)).
Proof.
  pose proof icon_paths_distinct as (D1 & D2 & D3 & D4 & D5 & D6).
  intros [<-|[<-|[<-|[]]]]; unfold written_fs;
    rewrite ?fs_update_eq, ?fs_update_neq, ?fs_update_eq by congruence; reflexivity.
Qed.

Lemma written_fs_other (f : path -> option node) (p : path) :
  ~ In p (map icon_path sizes) -> written_fs line_cover f p = f p.
Proof.
  intros H. unfold written_fs.
  rewrite !fs_update_neq; [reflexivity| |  |]; intros ->; apply H; simpl; tauto.
Qed.

Lemma written_fs_free (f : path -> option node) : paths_free (written_fs line_cover f).
Proof.
  repeat split; rewrite written_fs_files by (simpl; tauto); discriminate.
Qed.

Lemma written_fs_idem (f : path -> option node) (p : path) :
  written_fs line_cover (written_fs line_cover f) p = written_fs line_cover f p.
Proof.
  unfold written_fs at 1.
  rewrite fs_update_same; [|rewrite !fs_update_neq by discriminate; apply written_fs_files; simpl; tauto].
  rewrite fs_update_same; [|rewrite !fs_update_neq by discriminate; apply written_fs_files; simpl; tauto].
  rewrite fs_update_same; [reflexivity|apply written_fs_files; simpl; tauto].
Qed.

(** In a well-formed file system without [icons], nothing lies below it. *)
Lemma wf_free (f : path -> option node) :
  wf_fs f -> f icons_dir = None ->
  f (icon_path 16) = None /\ f (icon_path 48) = None /\ f (icon_path 128) = None.
Proof.
  intros Hw Hd.
  assert (G : forall s, f (icon_path s) = None).
  { intros s. destruct (f (icon_path s)) eqn:E; [|reflexivity].
    exfalso. assert (N : f (app icons_dir [icon_name s]) <> None) by (unfold icon_path in E; congruence).
    apply Hw in N; [congruence|discriminate]. }
  repeat split; apply G.
Qed.

End Run.

End DriverFacts.

(** * The specification's claims *)

Import F64 F64Facts GradientFacts GeometryFacts DriverFacts.

(** C1 (as stated): at size 16 no stroke reaches a corner, yet the four
    corner pixels are not transparent: they keep the opaque gradient. *)
Lemma corners_16_not_transparent :
  forallb (fun '(x, y) => negb (existsb (fun c => covers pil_line c x y) (stroke_cmds 16)))
    (corners 16) = true /\
  map (fun '(x, y) => alpha (pixel (create_icon pil_line 16) x y)) (corners 16)
    = [255; 255; 255; 255].
Proof. vm_compute. split; reflexivity. Qed.

(** C1 (amended): for every size > 0 the four corner pixels have alpha 255,
    whatever covers them (gradient row or white stroke). *)
Theorem create_icon_corners (line_cover : Z -> Z -> Z -> Z -> Z -> Z -> Z -> bool) (size : Z) :
  0 < size ->
  forall x y, In (x, y) (corners size) -> alpha (pixel (create_icon line_cover size) x y) = 255.
Proof.
  intros Hs x y Hin.
  unfold corners in Hin.
  destruct Hin as [E|[E|[E|[E|[]]]]]; injection E as <- <-; apply create_icon_alpha; lia.
Qed.

Lemma create_icon_corners_witness :
  0 < 16 /\
  forall x y, In (x, y) (corners 16) -> alpha (pixel (create_icon pil_line 16) x y) = 255.
Proof. split; [lia | apply (create_icon_corners pil_line 16); lia]. Defined.

(** C2: for size > 0 the background has at every column of row [y] the
    colour of row [y], which is (139, 92, 246, 255) at row 0; the red and
    green channels are the floors of the interpolations [139 + (59 - 139) *
    (y / size)] and [92 + (130 - 92) * (y / size)] evaluated in binary64,
    red stays in [59, 139] and does not grow with [y], green stays in
    [92, 130] and does not shrink, blue is 246 and alpha 255. *)
Theorem gradient_background (line_cover : Z -> Z -> Z -> Z -> Z -> Z -> Z -> bool) (size : Z) :
  0 < size ->
  (forall x y, 0 <= x < size -> 0 <= y < size ->
     pixel (background line_cover size) x y = gradient_color size y) /\
  (forall x, 0 <= x < size -> pixel (background line_cover size) x 0 = mk_rgba 139 92 246 255) /\
  (forall y, 0 <= y < size ->
     red (gradient_color size y)
       = Qfloor (add (of_int 139) (mul (of_int (59 - 139)) (int_div y size))) /\
     green (gradient_color size y)
       = Qfloor (add (of_int 92) (mul (of_int (130 - 92)) (int_div y size))) /\
     blue (gradient_color size y) = 246 /\
     alpha (gradient_color size y) = 255 /\
     59 <= red (gradient_color size y) <= 139 /\
     92 <= green (gradient_color size y) <= 130) /\
  (forall y1 y2, 0 <= y1 <= y2 -> y2 < size ->
     red (gradient_color size y2) <= red (gradient_color size y1) /\
     green (gradient_color size y1) <= green (gradient_color size y2)).
Proof.
  intros Hs.
  assert (RB : forall y, 0 <= y < size ->
    (59 <= add (of_int 139) (mul (of_int (59 - 139)) (int_div y size)) <= 139)%Q /\
    (92 <= add (of_int 92) (mul (of_int (130 - 92)) (int_div y size)) <= 130)%Q).
  { intros y Hy. pose proof (ratio_bounds size y Hs Hy) as R.
    split; [apply red_arg_bounds | apply green_arg_bounds]; exact R. }
  split; [|split; [|split]].
  - intros x y Hx Hy. apply background_pixel; assumption.
  - intros x Hx. rewrite background_pixel by lia. apply gradient_row0.
  - intros y Hy. destruct (RB y Hy) as [[R1 R2] [G1 G2]].
    rewrite red_value, green_value, blue_value.
    rewrite (to_int_floor (add (of_int 139) _)) by (apply (Qle_trans _ 59); [discriminate | assumption]).
    rewrite (to_int_floor (add (of_int 92) _)) by (apply (Qle_trans _ 92); [discriminate | assumption]).
    repeat split; try reflexivity.
    + change 59 with (Qfloor 59). apply Qfloor_resp_le. exact R1.
    + change 139 with (Qfloor 139). apply Qfloor_resp_le. exact R2.
    + change 92 with (Qfloor 92). apply Qfloor_resp_le. exact G1.
    + change 130 with (Qfloor 130). apply Qfloor_resp_le. exact G2.
  - intros y1 y2 Hy1 Hy2.
    destruct (RB y1 ltac:(lia)) as [[R1 _] [G1 _]].
    destruct (RB y2 ltac:(lia)) as [[R2 _] [G2 _]].
    pose proof (ratio_mono size y1 y2 Hs ltac:(lia)) as M.
    rewrite !red_value, !green_value. split.
    + apply to_int_mono; [apply (Qle_trans _ 59); [discriminate | assumption]|].
      apply lin_down; [lia | exact M].
    + apply to_int_mono; [apply (Qle_trans _ 92); [discriminate | assumption]|].
      apply lin_up; [lia | exact M].
Qed.

Lemma gradient_background_witness :
  0 < 16 /\
  (forall x y, 0 <= x < 16 -> 0 <= y < 16 ->
     pixel (background pil_line 16) x y = gradient_color 16 y) /\
  (forall x, 0 <= x < 16 -> pixel (background pil_line 16) x 0 = mk_rgba 139 92 246 255) /\
  (forall y, 0 <= y < 16 ->
     red (gradient_color 16 y)
       = Qfloor (add (of_int 139) (mul (of_int (59 - 139)) (int_div y 16))) /\
     green (gradient_color 16 y)
       = Qfloor (add (of_int 92) (mul (of_int (130 - 92)) (int_div y 16))) /\
     blue (gradient_color 16 y) = 246 /\
     alpha (gradient_color 16 y) = 255 /\
     59 <= red (gradient_color 16 y) <= 139 /\
     92 <= green (gradient_color 16 y) <= 130) /\
  (forall y1 y2, 0 <= y1 <= y2 -> y2 < 16 ->
     red (gradient_color 16 y2) <= red (gradient_color 16 y1) /\
     green (gradient_color 16 y1) <= green (gradient_color 16 y2)).
Proof. split; [lia | apply (gradient_background pil_line 16); lia]. Defined.

(** C3 (as stated): binary64 [0.7] is below [7/10], so at size 128 the third
    line lies at row 81, not at [padding + floor (inner * 7/10) = 82]; and at
    size 4 the third line ends where the other two do. *)
Lemma line3_offsets :
  line3_y 128 = 81 /\ padding 128 + inner 128 * 7 / 10 = 82 /\
  line3_end_x 4 = line_end_x 4.
Proof. vm_compute. repeat split. Qed.

(** C3 (amended): for 0 < size <= 2^31, with [p = floor (size * 15/100)] and
    [i = size - 2 p], the outline is drawn on [p, p, size - p, size - p]; the
    first two lines run from [p + floor (i * 2/10)] to [p + floor (i * 8/10)]
    at rows [p + floor (i * 3/10)] and [p + floor (i * 5/10)]; the third line
    runs from the same start to [floor (i * 2/10)] before that end, at row
    [p + floor (i * 7/10)] or one row higher (exactly that row when [7 i] is
    not a multiple of 10); it is strictly shorter exactly when [i >= 5]. *)
Theorem stroke_geometry (size : Z) :
  0 < size <= 2 ^ 31 ->
  let p := padding size in
  let i := inner size in
  p = size * 15 / 100 /\ i = size - 2 * p /\
  stroke_cmds size =
    [DrawOutline p p (size - p) (size - p) white (line_width size);
     DrawLine (p + i * 2 / 10) (p + i * 3 / 10) (p + i * 8 / 10) (p + i * 3 / 10)
       white (line_width size);
     DrawLine (p + i * 2 / 10) (p + i * 5 / 10) (p + i * 8 / 10) (p + i * 5 / 10)
       white (line_width size);
     DrawLine (p + i * 2 / 10) (line3_y size) (p + i * 8 / 10 - i * 2 / 10) (line3_y size)
       white (line_width size)] /\
  p + i * 7 / 10 - 1 <= line3_y size <= p + i * 7 / 10 /\
  ((i * 7) mod 10 <> 0 -> line3_y size = p + i * 7 / 10) /\
  (line3_end_x size < line_end_x size <-> 5 <= i).
Proof.
  intros Hs. cbv zeta.
  pose proof (inner_range size ltac:(lia)) as IR.
  pose proof (padding_exact size ltac:(lia)) as PE.
  destruct (trunc_0_7 (inner size) ltac:(lia)) as [T1 T2].
  unfold stroke_cmds, line3_end_x, line_end_x, line_start_x, line1_y, line2_y, inner_frac.
  cbv beta zeta.
  rewrite trunc_0_2, trunc_0_8, trunc_0_3, trunc_0_5 by lia.
  unfold line3_y, inner_frac.
  split; [exact PE|]. split; [reflexivity|]. split; [reflexivity|].
  split; [lia|]. split; [intros D; rewrite (T2 D); reflexivity|].
  pose proof (Z.div_mod (inner size * 2) 10 ltac:(lia)).
  pose proof (Z.mod_pos_bound (inner size * 2) 10 ltac:(lia)).
  split; intros; lia.
Qed.

Lemma stroke_geometry_witness :
  0 < 128 <= 2 ^ 31 /\
  let p := padding 128 in
  let i := inner 128 in
  p = 128 * 15 / 100 /\ i = 128 - 2 * p /\
  stroke_cmds 128 =
    [DrawOutline p p (128 - p) (128 - p) white (line_width 128);
     DrawLine (p + i * 2 / 10) (p + i * 3 / 10) (p + i * 8 / 10) (p + i * 3 / 10)
       white (line_width 128);
     DrawLine (p + i * 2 / 10) (p + i * 5 / 10) (p + i * 8 / 10) (p + i * 5 / 10)
       white (line_width 128);
     DrawLine (p + i * 2 / 10) (line3_y 128) (p + i * 8 / 10 - i * 2 / 10) (line3_y 128)
       white (line_width 128)] /\
  p + i * 7 / 10 - 1 <= line3_y 128 <= p + i * 7 / 10 /\
  ((i * 7) mod 10 <> 0 -> line3_y 128 = p + i * 7 / 10) /\
  (line3_end_x 128 < line_end_x 128 <-> 5 <= i).
Proof. split; [lia | apply (stroke_geometry 128); lia]. Defined.

(** C4: a run with no entry [icons] (in a file system where every entry
    lies in a directory) succeeds; it creates [icons/], then writes
    [icons/icon16.png], [icons/icon48.png], [icons/icon128.png] in that
    order, each after the previous progress line, prints three progress
    lines and the completion line, changes no other path, and each file
    holds the image of its size, [size] by [size] pixels. *)
Theorem first_run (line_cover : Z -> Z -> Z -> Z -> Z -> Z -> Z -> bool) (w : world) :
  fs w icons_dir = None -> wf_fs (fs w) ->
  snd (main line_cover w) = inr tt /\
  trace (fst (main line_cover w)) =
    app (trace w)
      [EMkdir ["icons"];
       EWrite ["icons"; "icon16.png"]; EPrint "Created icon16.png";
       EWrite ["icons"; "icon48.png"]; EPrint "Created icon48.png";
       EWrite ["icons"; "icon128.png"]; EPrint "Created icon128.png";
       EPrint "All icons created successfully!"] /\
  fs (fst (main line_cover w)) icons_dir = Some Dir /\
  map icon_path sizes = [["icons"; "icon16.png"]; ["icons"; "icon48.png"]; ["icons"; "icon128.png"]] /\
  (forall p, p <> icons_dir -> ~ In p (map icon_path sizes) ->
     fs (fst (main line_cover w)) p = fs w p) /\
  (forall size, In size sizes ->
     fs w (icon_path size) = None /\
     fs (fst (main line_cover w)) (icon_path size) = Some (File (create_icon line_cover size)) /\
     width (create_icon line_cover size) = size /\ height (create_icon line_cover size) = size).
Proof.
  intros Hd Hw.
  destruct (wf_free (fs w) Hw Hd) as (N16 & N48 & N128).
  rewrite main_none; [|exact Hd|repeat split; congruence].
  cbn [fst snd fs trace].
  pose proof icon_paths_distinct as (D1 & D2 & D3 & D4 & D5 & D6).
  split; [reflexivity|]. split; [reflexivity|].
  split; [rewrite written_fs_dir; apply fs_update_eq|].
  split; [reflexivity|]. split.
  - intros p Hp Hn. rewrite written_fs_other by exact Hn. apply fs_update_neq. exact Hp.
  - intros size Hin. split; [destruct Hin as [<-|[<-|[<-|[]]]]; assumption|].
    split; [apply written_fs_files; exact Hin|]. apply create_icon_dims.
Qed.

Lemma first_run_witness :
  fs empty_world icons_dir = None /\ wf_fs (fs empty_world) /\
  snd (main pil_line empty_world) = inr tt /\
  trace (fst (main pil_line empty_world)) =
    app (trace empty_world)
      [EMkdir ["icons"];
       EWrite ["icons"; "icon16.png"]; EPrint "Created icon16.png";
       EWrite ["icons"; "icon48.png"]; EPrint "Created icon48.png";
       EWrite ["icons"; "icon128.png"]; EPrint "Created icon128.png";
       EPrint "All icons created successfully!"] /\
  fs (fst (main pil_line empty_world)) icons_dir = Some Dir /\
  map icon_path sizes = [["icons"; "icon16.png"]; ["icons"; "icon48.png"]; ["icons"; "icon128.png"]] /\
  (forall p, p <> icons_dir -> ~ In p (map icon_path sizes) ->
     fs (fst (main pil_line empty_world)) p = fs empty_world p) /\
  (forall size, In size sizes ->
     fs empty_world (icon_path size) = None /\
     fs (fst (main pil_line empty_world)) (icon_path size) = Some (File (create_icon pil_line size)) /\
     width (create_icon pil_line size) = size /\ height (create_icon pil_line size) = size).
Proof.
  assert (H1 : fs empty_world icons_dir = None) by reflexivity.
  assert (H2 : wf_fs (fs empty_world)) by (intros p n _ H; exfalso; apply H; reflexivity).
  split; [exact H1|]. split; [exact H2|].
  apply (first_run pil_line empty_world H1 H2).
Defined.

(** C5: every outline and line of the icon is drawn with width
    [max 2 (size / 32)] (floor division), which is 4 at size 128 and 2 at
    size 16. *)
Theorem stroke_width (size : Z) :
  Forall (fun c => match c with
                   | DrawFill _ _ _ _ _ => True
                   | DrawOutline _ _ _ _ _ w | DrawLine _ _ _ _ _ w => w = Z.max 2 (size / 32)
                   end) (icon_cmds size) /\
  line_width 128 = 4 /\ line_width 16 = 2.
Proof.
  split; [|split; reflexivity].
  unfold icon_cmds. apply Forall_app. split.
  - apply Forall_forall. intros c Hc. unfold gradient_cmds in Hc.
    apply in_map_iff in Hc as (y & <- & _). exact I.
  - unfold stroke_cmds. repeat constructor.
Qed.

(** C6: after a successful run, a second run succeeds too, writes the three
    files again and leaves every path of the file system as the first run
    left it: each icon file holds the same image of its size. *)
Theorem rerun_identical (line_cover : Z -> Z -> Z -> Z -> Z -> Z -> Z -> bool) (w w1 : world) :
  main line_cover w = (w1, inr tt) ->
  snd (main line_cover w1) = inr tt /\
  trace (fst (main line_cover w1)) = app (trace w1) loop_trace /\
  (forall p, fs (fst (main line_cover w1)) p = fs w1 p) /\
  (forall size, In size sizes -> fs w1 (icon_path size) = Some (File (create_icon line_cover size))).
Proof.
  intros H.
  destruct (main_inr line_cover w w1 H) as [Hd Hf].
  assert (G : exists f t, w1 = mk_world (written_fs line_cover f) t /\ f icons_dir = Some Dir).
  { destruct Hd as [Hd|Hd].
    - rewrite main_none in H by assumption. injection H as <-.
      do 2 eexists. split; [reflexivity | apply fs_update_eq].
    - rewrite main_dir in H by assumption. injection H as <-.
      do 2 eexists. split; [reflexivity | exact Hd]. }
  destruct G as (f & t & -> & Hf1).
  rewrite main_dir; cbn [fs fst snd trace].
  - split; [reflexivity|]. split; [reflexivity|]. split.
    + intros p. apply written_fs_idem.
    + intros size Hin. apply written_fs_files. exact Hin.
  - rewrite written_fs_dir. exact Hf1.
  - apply written_fs_free.
Qed.

Lemma rerun_identical_witness :
  main pil_line empty_world = (fst (main pil_line empty_world), inr tt) /\
  snd (main pil_line (fst (main pil_line empty_world))) = inr tt /\
  trace (fst (main pil_line (fst (main pil_line empty_world))))
    = app (trace (fst (main pil_line empty_world))) loop_trace /\
  (forall p, fs (fst (main pil_line (fst (main pil_line empty_world)))) p
             = fs (fst (main pil_line empty_world)) p) /\
  (forall size, In size sizes ->
     fs (fst (main pil_line empty_world)) (icon_path size) = Some (File (create_icon pil_line size))).
Proof.
  assert (H : main pil_line empty_world = (fst (main pil_line empty_world), inr tt))
    by reflexivity.
  split; [exact H|].
  exact (rerun_identical pil_line empty_world (fst (main pil_line empty_world)) H).
Defined.

(** C7: when [icons] is already a directory (and no output path is a
    directory), a run creates no directory and raises nothing, prints and
    writes as a first run does, and leaves in the three files what a first
    run from a file system without [icons] leaves. *)
Theorem existing_dir (line_cover : Z -> Z -> Z -> Z -> Z -> Z -> Z -> bool) (w w0 : world) :
  fs w icons_dir = Some Dir -> paths_free (fs w) ->
  fs w0 icons_dir = None -> wf_fs (fs w0) ->
  snd (main line_cover w) = inr tt /\
  trace (fst (main line_cover w)) = app (trace w) loop_trace /\
  (forall p, ~ In (EMkdir p) loop_trace) /\
  trace (fst (main line_cover w0)) = app (trace w0) (EMkdir icons_dir :: loop_trace) /\
  (forall size, In size sizes ->
     fs (fst (main line_cover w)) (icon_path size) = fs (fst (main line_cover w0)) (icon_path size)).
Proof.
  intros Hd Hf Hd0 Hw0.
  destruct (wf_free (fs w0) Hw0 Hd0) as (N16 & N48 & N128).
  rewrite main_dir by assumption.
  rewrite main_none; [|exact Hd0|repeat split; congruence].
  cbn [fst snd fs trace].
  split; [reflexivity|]. split; [reflexivity|].
  split; [intros p Hin; simpl in Hin; repeat destruct Hin as [Hin|Hin]; discriminate Hin || exact Hin|].
  split; [reflexivity|].
  intros size Hin. rewrite !written_fs_files by exact Hin. reflexivity.
Qed.

Lemma existing_dir_witness :
  fs dir_world icons_dir = Some Dir /\ paths_free (fs dir_world) /\
  fs empty_world icons_dir = None /\ wf_fs (fs empty_world) /\
  snd (main pil_line dir_world) = inr tt /\
  trace (fst (main pil_line dir_world)) = app (trace dir_world) loop_trace /\
  (forall p, ~ In (EMkdir p) loop_trace) /\
  trace (fst (main pil_line empty_world)) = app (trace empty_world) (EMkdir icons_dir :: loop_trace) /\
  (forall size, In size sizes ->
     fs (fst (main pil_line dir_world)) (icon_path size)
     = fs (fst (main pil_line empty_world)) (icon_path size)).
Proof.
  assert (H1 : fs dir_world icons_dir = Some Dir) by reflexivity.
  assert (H2 : paths_free (fs dir_world)) by (vm_compute; repeat split; intro E; discriminate E).
  assert (H3 : fs empty_world icons_dir = None) by reflexivity.
  assert (H4 : wf_fs (fs empty_world)) by (intros p n _ H; exfalso; apply H; reflexivity).
  split; [exact H1|]. split; [exact H2|]. split; [exact H3|]. split; [exact H4|].
  apply (existing_dir pil_line dir_world empty_world H1 H2 H3 H4).
Defined.

(** C8: for size > 0 the icon is [size] pixels wide and [size] high. *)
Theorem create_icon_size (line_cover : Z -> Z -> Z -> Z -> Z -> Z -> Z -> bool) (size : Z) :
  0 < size ->
  width (create_icon line_cover size) = size /\ height (create_icon line_cover size) = size.
Proof. intros _. apply create_icon_dims. Qed.

Lemma create_icon_size_witness :
  0 < 48 /\ width (create_icon pil_line 48) = 48 /\ height (create_icon pil_line 48) = 48.
Proof. split; [lia | apply (create_icon_size pil_line 48); lia]. Defined.

(** C9: for size > 0 every pixel of the icon has alpha 255. *)
Theorem create_icon_all_opaque (line_cover : Z -> Z -> Z -> Z -> Z -> Z -> Z -> bool) (size : Z) :
  0 < size ->
  forall x y, 0 <= x < size -> 0 <= y < size ->
  alpha (pixel (create_icon line_cover size) x y) = 255.
Proof. intros _ x y Hx Hy. apply create_icon_alpha; assumption. Qed.

Lemma create_icon_all_opaque_witness :
  0 < 16 /\
  forall x y, 0 <= x < 16 -> 0 <= y < 16 -> alpha (pixel (create_icon pil_line 16) x y) = 255.
Proof. split; [lia | apply (create_icon_all_opaque pil_line 16); lia]. Defined.

(** C10: a run appends to the trace a list of events that contains the
    creation of [icons] exactly when no entry [icons] existed; when [icons]
    is a regular file, the run creates nothing and fails on its first save
    with [NotADirectoryError] for [icons/icon16.png]. *)
Theorem exists_check (line_cover : Z -> Z -> Z -> Z -> Z -> Z -> Z -> bool) (w : world) :
  (exists l, trace (fst (main line_cover w)) = app (trace w) l /\
             (In (EMkdir icons_dir) l <-> fs w icons_dir = None)) /\
  (forall img, fs w icons_dir = Some (File img) ->
     main line_cover w = (w, inl (NotADirectoryError (icon_path 16)))).
Proof.
  split.
  - unfold main.
    destruct (fs w icons_dir) as [n|] eqn:Hd.
    + erewrite bind_inr; [|unfold path_exists; rewrite Hd; reflexivity]. cbn [negb].
      erewrite bind_inr; [|reflexivity].
      destruct (no_mkdir_loop line_cover w) as [l [T N]].
      exists l. split; [exact T|]. split; [intros Hin; exfalso; exact (N _ Hin) | discriminate].
    + erewrite bind_inr; [|unfold path_exists; rewrite Hd; reflexivity]. cbn [negb].
      erewrite bind_inr; [|unfold makedirs; rewrite Hd; reflexivity].
      set (w' := mk_world _ _).
      destruct (no_mkdir_loop line_cover w') as [l [T N]].
      exists (EMkdir icons_dir :: l). split.
      * rewrite T. unfold w', emit. cbn [trace]. rewrite <- app_assoc. reflexivity.
      * split; [reflexivity | intros _; left; reflexivity].
  - intros img Hd. apply main_file with (img := img). exact Hd.
Qed.

(** * Further properties of the script *)

Module ExtraFacts.
Local Open Scope string_scope.

Section WithCover.
Variable line_cover : Z -> Z -> Z -> Z -> Z -> Z -> Z -> bool.

(** Drawing commands that all use white ink. *)
Lemma render_white (cs : list draw_cmd) : forall img x y,
  Forall (fun c => cmd_ink c = white) cs ->
  pixel (render line_cover img cs) x y =
  if in_image img x y && existsb (fun c => covers line_cover c x y) cs then white
  else pixel img x y.
Proof.
  induction cs as [|c cs IH]; intros img x y Hw.
  - simpl. destruct (in_image img x y); reflexivity.
  - inversion Hw as [|? ? Hc Hcs]; subst. simpl. rewrite IH by exact Hcs.
    change (in_image (apply_cmd line_cover img c) x y) with (in_image img x y).
    simpl. rewrite Hc.
    destruct (in_image img x y), (covers line_cover c x y), (existsb _ cs); reflexivity.
Qed.

Lemma bind_inl {A B} (m : M A) (k : A -> M B) (w w' : world) (e : py_error) :
  m w = (w', inl e) -> bind m k w = (w', inl e).
Proof. intros H. unfold bind. rewrite H. reflexivity. Qed.

Lemma icon_step_dir (w : world) (size : Z) :
  fs w icons_dir = Some Dir -> fs w (icon_path size) = Some Dir ->
  icon_step line_cover size w = (w, inl (IsADirectoryError (icon_path size))).
Proof.
  intros Hd Hp. unfold icon_step, bind, save. rewrite Hd.
  change (app icons_dir [icon_name size]) with (icon_path size). rewrite Hp. reflexivity.
Qed.

Lemma is_dir_true (o : option node) : is_dir o = true -> o = Some Dir.
Proof. destruct o as [[|]|]; simpl; congruence. Qed.

Lemma is_dir_false (o : option node) : is_dir o = false -> o <> Some Dir.
Proof. destruct o as [[|]|]; simpl; congruence. Qed.

Lemma first_dir_none (f : path -> option node) : first_dir f = None <-> paths_free f.
Proof.
  unfold first_dir, paths_free, sizes. simpl.
  destruct (is_dir (f (icon_path 16))) eqn:E16;
    [apply is_dir_true in E16; split; [discriminate | intros [H _]; congruence]|].
  destruct (is_dir (f (icon_path 48))) eqn:E48;
    [apply is_dir_true in E48; split; [discriminate | intros [_ [H _]]; congruence]|].
  destruct (is_dir (f (icon_path 128))) eqn:E128;
    [apply is_dir_true in E128; split; [discriminate | intros [_ [_ H]]; congruence]|].
  apply is_dir_false in E16, E48, E128. tauto.
Qed.

Lemma first_dir_in (f : path -> option node) (s : Z) : first_dir f = Some s -> In s sizes.
Proof. intros H. apply find_some in H. apply H. Qed.

Lemma first_dir_update (f : path -> option node) (n : node) :
  first_dir (fs_update f icons_dir n) = first_dir f.
Proof.
  pose proof icon_paths_distinct as (D1 & D2 & D3 & D4 & D5 & D6).
  unfold first_dir, sizes. simpl. rewrite !fs_update_neq by congruence. reflexivity.
Qed.

Ltac fs_simpl :=
  repeat (rewrite fs_update_eq || (rewrite fs_update_neq by (intro; discriminate))).

(** The loop stops at the first output path that is a directory. *)
Lemma loop_blocked (w : world) (s : Z) :
  fs w icons_dir = Some Dir -> first_dir (fs w) = Some s ->
  exists w',
    (for_each sizes (icon_step line_cover) ;;; print "All icons created successfully!") w
      = (w', inl (IsADirectoryError (icon_path s))) /\
    trace w' = app (trace w) (flat_map progress_events (filter (fun s' => s' <? s)%Z sizes)) /\
    (forall s', In s' sizes -> (s' < s)%Z ->
       fs w' (icon_path s') = Some (File (create_icon line_cover s'))).
Proof.
  intros Hd H.
  pose proof icon_paths_distinct as (D1 & D2 & D3 & D4 & D5 & D6).
  unfold first_dir, sizes in H. simpl in H. unfold sizes. cbn [for_each].
  destruct (is_dir (fs w (icon_path 16))) eqn:E16.
  { injection H as <-. apply is_dir_true in E16.
    exists w. split; [|split].
    - apply bind_inl. apply bind_inl. apply icon_step_dir; assumption.
    - replace (filter _ _) with (@nil Z) by reflexivity. simpl. rewrite app_nil_r. reflexivity.
    - intros s' Hin Hlt. destruct Hin as [<-|[<-|[<-|[]]]]; lia. }
  apply is_dir_false in E16.
  pose proof (icon_step_ok line_cover w 16 Hd E16) as S1.
  set (w1 := mk_world _ _) in S1.
  assert (H1 : fs w1 icons_dir = Some Dir) by (simpl; fs_simpl; exact Hd).
  destruct (is_dir (fs w (icon_path 48))) eqn:E48.
  { injection H as <-. apply is_dir_true in E48.
    exists w1. split; [|split].
    - apply bind_inl. erewrite bind_inr; [|exact S1].
      apply bind_inl. apply icon_step_dir; [exact H1|]. simpl. fs_simpl. exact E48.
    - replace (filter _ _) with [16%Z] by reflexivity. reflexivity.
    - intros s' Hin Hlt. destruct Hin as [<-|[<-|[<-|[]]]]; try lia. simpl. fs_simpl. reflexivity. }
  apply is_dir_false in E48.
  assert (F48 : fs w1 (icon_path 48) <> Some Dir) by (simpl; fs_simpl; exact E48).
  pose proof (icon_step_ok line_cover w1 48 H1 F48) as S2.
  set (w2 := mk_world _ _) in S2.
  assert (H2 : fs w2 icons_dir = Some Dir) by (simpl; fs_simpl; exact Hd).
  destruct (is_dir (fs w (icon_path 128))) eqn:E128; [|discriminate H].
  injection H as <-. apply is_dir_true in E128.
  exists w2. split; [|split].
  - apply bind_inl. erewrite bind_inr; [|exact S1]. erewrite bind_inr; [|exact S2].
    apply bind_inl. apply icon_step_dir; [exact H2|]. simpl. fs_simpl. exact E128.
  - replace (filter _ _) with [16%Z; 48%Z] by reflexivity.
    unfold w2, w1. simpl. rewrite <- app_assoc. reflexivity.
  - intros s' Hin Hlt. destruct Hin as [<-|[<-|[<-|[]]]]; try lia; simpl; fs_simpl; reflexivity.
Qed.

Lemma frame_ret {A} (S : list path) (a : A) : frame S (ret a).
Proof. intros w p _. reflexivity. Qed.

Lemma frame_bind {A B} (S : list path) (m : M A) (k : A -> M B) :
  frame S m -> (forall a, frame S (k a)) -> frame S (bind m k).
Proof.
  intros Hm Hk w p Hp. unfold bind. pose proof (Hm w p Hp) as E.
  destruct (m w) as [w' [e|a]]; simpl in *; [exact E|]. rewrite Hk by exact Hp. exact E.
Qed.

Lemma frame_save (S : list path) (d : path) (name : string) (img : image) :
  In (app d [name]) S -> frame S (save d name img).
Proof.
  intros Hin w p Hp. unfold save.
  destruct (fs w d) as [[|]|]; [|reflexivity|reflexivity].
  destruct (fs w (app d [name])) as [[|]|]; simpl; try reflexivity;
    apply fs_update_neq; intros ->; contradiction.
Qed.

Lemma frame_print (S : list path) (msg : string) : frame S (print msg).
Proof. intros w p _. reflexivity. Qed.

Lemma frame_makedirs (S : list path) (d : path) : In d S -> frame S (makedirs d).
Proof.
  intros Hin w p Hp. unfold makedirs.
  destruct (fs w d); [reflexivity|]. simpl. apply fs_update_neq. intros ->. contradiction.
Qed.

Lemma frame_path_exists (S : list path) (d : path) : frame S (path_exists d).
Proof. intros w p _. reflexivity. Qed.

Lemma frame_for_each {A} (S : list path) (l : list A) (body : A -> M unit) :
  (forall a, In a l -> frame S (body a)) -> frame S (for_each l body).
Proof.
  induction l as [|a l IH]; intros Hb; cbn [for_each]; [apply frame_ret|].
  apply frame_bind; [apply Hb; left; reflexivity|].
  intros _. apply IH. intros a' Ha'. apply Hb. right. exact Ha'.
Qed.

Lemma keeps_wf_ret {A} (a : A) : keeps_wf (ret a).
Proof. intros w H. exact H. Qed.

Lemma keeps_wf_bind {A B} (m : M A) (k : A -> M B) :
  keeps_wf m -> (forall a, keeps_wf (k a)) -> keeps_wf (bind m k).
Proof.
  intros Hm Hk w H. unfold bind. pose proof (Hm w H) as E.
  destruct (m w) as [w' [e|a]]; simpl in *; [exact E|]. apply Hk. exact E.
Qed.

Lemma keeps_wf_print (msg : string) : keeps_wf (print msg).
Proof. intros w H. exact H. Qed.

Lemma keeps_wf_path_exists (d : path) : keeps_wf (path_exists d).
Proof. intros w H. exact H. Qed.

Lemma keeps_wf_save (d : path) (name : string) (img : image) : keeps_wf (save d name img).
Proof.
  intros w H. unfold save.
  destruct (fs w d) as [[|]|] eqn:Hd; [|exact H|exact H].
  destruct (fs w (app d [name])) as [[|]|] eqn:Hp; simpl; [exact H| |];
  intros q n Hq Hne; unfold fs_update, path_eqb in *;
  (destruct (list_eq_dec string_dec (app q [n]) (app d [name])) as [E|E];
   [apply app_inj_tail in E as [-> _];
    destruct (list_eq_dec string_dec d (app d [name])) as [E'|_];
    [apply (f_equal (@length string)) in E'; rewrite length_app in E'; simpl in E'; lia
    | exact Hd]
   | destruct (list_eq_dec string_dec q (app d [name])) as [->|_];
     [exfalso; apply H in Hne; [congruence|exact Hq] | exact (H q n Hq Hne)]]).
Qed.

Lemma keeps_wf_makedirs (c : string) : keeps_wf (makedirs [c]).
Proof.
  intros w H. unfold makedirs.
  destruct (fs w [c]) eqn:Hc; [exact H|]. simpl.
  intros q n Hq Hne. unfold fs_update, path_eqb in *.
  destruct (list_eq_dec string_dec q [c]) as [->|Nq].
  - reflexivity.
  - destruct (list_eq_dec string_dec (app q [n]) [c]) as [E|_].
    + destruct q as [|a q]; [congruence|].
      apply (f_equal (@length string)) in E. rewrite length_app in E. simpl in E. lia.
    + exact (H q n Hq Hne).
Qed.

Lemma keeps_wf_for_each {A} (l : list A) (body : A -> M unit) :
  (forall a, keeps_wf (body a)) -> keeps_wf (for_each l body).
Proof.
  intros Hb. induction l as [|a l IH]; cbn [for_each]; [apply keeps_wf_ret|].
  apply keeps_wf_bind; [apply Hb|intros _; exact IH].
Qed.

End WithCover.

(** Quotient and remainder facts of a division by a positive constant. *)
Ltac div_facts a b :=
  pose proof (Z.div_mod a b ltac:(lia)); pose proof (Z.mod_pos_bound a b ltac:(lia)).

Lemma append_cancel_l (s t u : string) : (s ++ t)%string = (s ++ u)%string -> t = u.
Proof. induction s as [|c s IH]; simpl; intros H; [exact H|]. injection H. exact IH. Qed.

(** Appending to the digits of a number. *)
Lemma digits_app (fuel : nat) : forall (n : Z) (acc t : string),
  (digits fuel n acc ++ t)%string = digits fuel n (acc ++ t)%string.
Proof.
  induction fuel as [|fuel IH]; intros n acc t; simpl; [reflexivity|].
  destruct (n <? 10)%Z; [reflexivity|]. rewrite IH. reflexivity.
Qed.

Lemma read_digit (n : Z) (acc : string) (v : Z) : (0 <= n)%Z ->
  read_digits (String (Ascii.ascii_of_nat (48 + Z.to_nat (n mod 10))) acc) v
  = read_digits acc (10 * v + n mod 10)%Z.
Proof.
  intros Hn. cbn [read_digits]. cbv zeta.
  pose proof (Z.mod_pos_bound n 10 ltac:(lia)) as B.
  rewrite Ascii.nat_ascii_embedding by lia.
  replace (Z.of_nat (48 + Z.to_nat (n mod 10)) - 48)%Z with (n mod 10)%Z by lia.
  replace ((0 <=? n mod 10) && (n mod 10 <? 10))%Z with true
    by (symmetry; apply andb_true_iff; split; [apply Z.leb_le|apply Z.ltb_lt]; lia).
  reflexivity.
Qed.

(** Reading back the digits of [n]. *)
Lemma read_digits_digits (fuel : nat) : forall (n : Z) (acc : string),
  (0 <= n < 10 ^ Z.of_nat fuel)%Z -> read_digits (digits fuel n acc) 0 = read_digits acc n.
Proof.
  induction fuel as [|fuel IH]; intros n acc Hn.
  - simpl in Hn. simpl. replace n with 0%Z by lia. reflexivity.
  - cbn [digits].
    pose proof (Z.div_mod n 10 ltac:(lia)) as DM.
    pose proof (Z.mod_pos_bound n 10 ltac:(lia)) as B.
    destruct (Z.ltb_spec n 10) as [Lt|Ge].
    + rewrite read_digit by lia. rewrite Z.mod_small by lia. f_equal; lia.
    + rewrite IH.
      * rewrite read_digit by lia. f_equal; lia.
      * rewrite Nat2Z.inj_succ, Z.pow_succ_r in Hn by lia.
        split; [apply Z.div_pos; lia|]. apply Z.div_lt_upper_bound; lia.
Qed.

End ExtraFacts.

(** ** Error bounds of the gradient's binary64 arithmetic *)
Module GradientError.
Import F64 F64Facts GradientFacts GeometryFacts.
Local Open Scope Q_scope.

(** Absolute error of one rounding, for an argument bounded by [B]. *)
Lemma round_err_abs (x B : Q) : - B <= x <= B ->
  x - B * u53 <= round x <= x + B * u53.
Proof.
  intros [H1 H2]. unfold u53.
  destruct (Qlt_le_dec 0 x) as [Hp|Hn].
  - rewrite round_of_pos by exact Hp.
    pose proof (round_pos_err x Hp) as E. lra.
  - destruct (Qlt_le_dec x 0) as [Hm|Hz].
    + rewrite round_of_neg by exact Hm.
      assert (Hx : 0 < - x) by lra.
      pose proof (round_pos_err (- x) Hx) as E. lra.
    + assert (Z0 : x == 0) by lra. rewrite (round_of_zero x Z0). lra.
Qed.

Lemma ratio_exact_bounds (size y : Z) : (0 < size)%Z -> (0 <= y < size)%Z ->
  0 <= inject_Z y / inject_Z size <= 1.
Proof.
  intros Hs Hy.
  assert (S0 : 0 < inject_Z size) by (change 0 with (inject_Z 0); rewrite <- Zlt_Qlt; lia).
  assert (Y0 : 0 <= inject_Z y) by (change 0 with (inject_Z 0); rewrite <- Zle_Qle; lia).
  assert (Y1 : inject_Z y <= inject_Z size) by (rewrite <- Zle_Qle; lia).
  split; [apply Qle_shift_div_l | apply Qle_shift_div_r]; lra.
Qed.

Lemma red_near (size y : Z) : (0 < size)%Z -> (0 <= y < size)%Z ->
  139 - 80 * (inject_Z y / inject_Z size) - 382 * u53
  <= add (of_int 139) (mul (of_int (59 - 139)) (int_div y size))
  <= 139 - 80 * (inject_Z y / inject_Z size) + 382 * u53.
Proof.
  intros Hs Hy.
  pose proof (ratio_exact_bounds size y Hs Hy) as T.
  set (t := inject_Z y / inject_Z size) in *.
  assert (Q1 : t - 1 * u53 <= int_div y size <= t + 1 * u53)
    by (apply (round_err_abs t 1); split; lra).
  set (q := int_div y size) in *. clearbody t q.
  assert (C : of_int (59 - 139) == -80) by reflexivity.
  assert (A : of_int 139 == 139) by reflexivity.
  unfold u53 in *.
  assert (P1 := round_err_abs (-80 * q) 81 ltac:(unfold u53 in *; split; lra)).
  assert (P2 : mul (of_int (59 - 139)) q == round (-80 * q))
    by (unfold mul; apply round_comp; rewrite C; reflexivity).
  set (pr := mul (of_int (59 - 139)) q) in *. clearbody pr.
  assert (S1 := round_err_abs (139 + pr) 221 ltac:(unfold u53 in *; split; lra)).
  assert (S2 : add (of_int 139) pr == round (139 + pr))
    by (unfold add; apply round_comp; rewrite A; reflexivity).
  unfold u53 in *. lra.
Qed.

Lemma green_near (size y : Z) : (0 < size)%Z -> (0 <= y < size)%Z ->
  92 + 38 * (inject_Z y / inject_Z size) - 217 * u53
  <= add (of_int 92) (mul (of_int (130 - 92)) (int_div y size))
  <= 92 + 38 * (inject_Z y / inject_Z size) + 217 * u53.
Proof.
  intros Hs Hy.
  pose proof (ratio_exact_bounds size y Hs Hy) as T.
  set (t := inject_Z y / inject_Z size) in *.
  assert (Q1 : t - 1 * u53 <= int_div y size <= t + 1 * u53)
    by (apply (round_err_abs t 1); split; lra).
  set (q := int_div y size) in *. clearbody t q.
  assert (C : of_int (130 - 92) == 38) by reflexivity.
  assert (A : of_int 92 == 92) by reflexivity.
  unfold u53 in *.
  assert (P1 := round_err_abs (38 * q) 39 ltac:(unfold u53 in *; split; lra)).
  assert (P2 : mul (of_int (130 - 92)) q == round (38 * q))
    by (unfold mul; apply round_comp; rewrite C; reflexivity).
  set (pr := mul (of_int (130 - 92)) q) in *. clearbody pr.
  assert (S1 := round_err_abs (92 + pr) 140 ltac:(unfold u53 in *; split; lra)).
  assert (S2 : add (of_int 92) pr == round (92 + pr))
    by (unfold add; apply round_comp; rewrite A; reflexivity).
  unfold u53 in *. lra.
Qed.

(** Truncating a value within [eps] of [N / S]: the floor of [N / S], or
    one less when [N / S] is an integer. *)
Lemma trunc_near (v eps : Q) (N S : Z) :
  (0 < S <= 2 ^ 31)%Z -> (0 <= N)%Z -> 0 <= v -> 0 <= eps -> eps < 1 # 4294967296 ->
  inject_Z N / inject_Z S - eps <= v <= inject_Z N / inject_Z S + eps ->
  (N / S - 1 <= to_int v <= N / S)%Z /\ ((N mod S <> 0)%Z -> to_int v = (N / S)%Z).
Proof.
  intros HS HN Hv He1 He2 [V1 V2].
  pose proof (Z.div_mod N S ltac:(lia)) as DM.
  pose proof (Z.mod_pos_bound N S ltac:(lia)) as MB.
  set (F := (N / S)%Z) in *. set (R := (N mod S)%Z) in *.
  assert (F0 : (0 <= F)%Z) by (apply Z.div_pos; lia).
  assert (S0 : 0 < inject_Z S) by (change 0 with (inject_Z 0); rewrite <- Zlt_Qlt; lia).
  assert (E : inject_Z N / inject_Z S == inject_Z F + inject_Z R / inject_Z S).
  { rewrite DM, inject_Z_plus, inject_Z_mult. field. lra. }
  rewrite E in V1, V2.
  set (inv := 1 / inject_Z S).
  assert (I1 : 1 # 2147483648 <= inv).
  { unfold inv. apply Qle_shift_div_l; [exact S0|].
    assert (inject_Z S <= 2147483648 # 1)
      by (change (2147483648 # 1) with (inject_Z (2 ^ 31)); rewrite <- Zle_Qle; lia).
    lra. }
  assert (R1 : inject_Z R / inject_Z S <= 1 - inv).
  { assert (inject_Z R <= inject_Z S - 1)
      by (rewrite <- inject_Z_1, <- inject_Z_sub; rewrite <- Zle_Qle; lia).
    assert (D : (inject_Z S - 1) / inject_Z S == 1 - inv) by (unfold inv; field; intro; lra).
    apply Qle_trans with ((inject_Z S - 1) / inject_Z S); [|rewrite D; apply Qle_refl].
    apply Qmult_le_compat_r; [exact H|].
    apply Qlt_le_weak, Qinv_lt_0_compat; exact S0. }
  assert (R0 : 0 <= inject_Z R / inject_Z S).
  { apply Qle_shift_div_l; [exact S0|].
    change 0 with (inject_Z 0) at 1. rewrite Qmult_0_l.
    change 0 with (inject_Z 0). rewrite <- Zle_Qle. lia. }
  assert (Lo : inject_Z (F - 1) <= v) by (rewrite inject_Z_sub; unfold inject_Z at 2; lra).
  assert (Hi : v < inject_Z (F + 1)) by (rewrite inject_Z_plus; unfold inject_Z at 2; lra).
  split.
  - rewrite to_int_floor by exact Hv. split.
    + apply Qfloor_resp_le in Lo. rewrite Qfloor_Z in Lo. exact Lo.
    + pose proof (Qfloor_le v) as Fl.
      assert (inject_Z (Qfloor v) < inject_Z (F + 1)) by (eapply Qle_lt_trans; eauto).
      rewrite <- Zlt_Qlt in H. lia.
  - intros RN. apply to_int_between; [|exact Hi|exact F0].
    assert (inv <= inject_Z R / inject_Z S).
    { unfold inv. apply Qmult_le_compat_r; [|apply Qlt_le_weak, Qinv_lt_0_compat; exact S0].
      rewrite <- inject_Z_1. rewrite <- Zle_Qle. lia. }
    lra.
Qed.

End GradientError.

Import ExtraFacts.

(** Composition of the drawing: inside the canvas, a pixel is white when
    one of the four strokes covers it, and otherwise keeps the gradient
    colour of its row. *)
Theorem create_icon_pixel (line_cover : Z -> Z -> Z -> Z -> Z -> Z -> Z -> bool) (size x y : Z) :
  0 <= x < size -> 0 <= y < size ->
  pixel (create_icon line_cover size) x y =
  if existsb (fun c => covers line_cover c x y) (stroke_cmds size) then white
  else gradient_color size y.
Proof.
  intros Hx Hy. unfold create_icon, icon_cmds. rewrite render_app.
  fold (background line_cover size).
  rewrite render_white by (unfold stroke_cmds; repeat constructor).
  destruct (render_dims line_cover (gradient_cmds size) (image_new size size transparent)) as [W H].
  fold (background line_cover size) in W, H.
  assert (I : in_image (background line_cover size) x y = true).
  { unfold in_image. rewrite W, H. simpl.
    rewrite !andb_true_iff, !Z.leb_le, !Z.ltb_lt. lia. }
  rewrite I, andb_true_l. rewrite background_pixel by assumption. reflexivity.
Qed.

Lemma create_icon_pixel_witness :
  (0 <= 3 < 16 /\ 0 <= 5 < 16) /\
  pixel (create_icon pil_line 16) 3 5 =
  if existsb (fun c => covers pil_line c 3 5) (stroke_cmds 16) then white
  else gradient_color 16 5.
Proof. split; [lia | apply (create_icon_pixel pil_line 16 3 5); lia]. Defined.

(** The outline of line 24, for 4 <= size <= 2^31: a pixel is covered
    exactly when it lies in the square [p, size - p] (both ends included)
    but not at distance [lw] or more from its border, where [p] is the
    padding and [lw] the stroke width. *)
Theorem outline_ring (line_cover : Z -> Z -> Z -> Z -> Z -> Z -> Z -> bool) (size x y : Z) :
  4 <= size <= 2 ^ 31 ->
  let p := padding size in
  let lw := line_width size in
  covers line_cover (DrawOutline p p (size - p) (size - p) white lw) x y = true <->
  (p <= x <= size - p /\ p <= y <= size - p /\
   ~ (p + lw <= x <= size - p - lw /\ p + lw <= y <= size - p - lw)).
Proof.
  intros Hs. cbv zeta.
  pose proof (padding_exact size ltac:(lia)) as P.
  assert (L : 2 <= line_width size /\ 2 * line_width size <= size - 2 * padding size).
  { unfold line_width. rewrite P. destruct (Z_le_gt_dec size 10) as [Sm|Lg].
    assert (C : size = 4 \/ size = 5 \/ size = 6 \/ size = 7 \/ size = 8 \/ size = 9 \/ size = 10)
      by lia.
    repeat destruct C as [C|C]; subst size; split; compute; congruence.
    div_facts size 32. div_facts (size * 15) 100. lia. }
  generalize (padding size) (line_width size) L. clear P L. intros p lw [L1 L2].
  unfold covers, between. cbv zeta.
  replace (lw =? 0) with false by (symmetry; apply Z.eqb_neq; lia). cbv iota.
  repeat (rewrite orb_true_iff || rewrite andb_true_iff || rewrite Z.leb_le || rewrite Z.ltb_lt).
  lia.
Qed.

Lemma outline_ring_witness :
  4 <= 16 <= 2 ^ 31 /\
  (let p := padding 16 in
   let lw := line_width 16 in
   covers pil_line (DrawOutline p p (16 - p) (16 - p) white lw) 3 7 = true <->
   (p <= 3 <= 16 - p /\ p <= 7 <= 16 - p /\
    ~ (p + lw <= 3 <= 16 - p - lw /\ p + lw <= 7 <= 16 - p - lw))).
Proof. split; [lia | apply (outline_ring pil_line 16 3 7); lia]. Defined.

(** The guide lines of lines 27-36, for 12 <= size <= 2^31: their
    endpoints and rows lie inside the outline's inner square
    [p + lw, size - p - lw], the rows strictly increase from the first line
    to the third, and the third line ends strictly between the common start
    and the others' end. *)
Theorem guide_lines_inside (size : Z) :
  12 <= size <= 2 ^ 31 ->
  let p := padding size in
  let lw := line_width size in
  p + lw <= line_start_x size /\ line_start_x size < line3_end_x size /\
  line3_end_x size < line_end_x size /\ line_end_x size <= size - p - lw /\
  p + lw <= line1_y size /\ line1_y size < line2_y size /\
  line2_y size < line3_y size /\ line3_y size <= size - p - lw.
Proof.
  intros Hs. cbv zeta.
  pose proof (padding_exact size ltac:(lia)) as P.
  pose proof (inner_range size ltac:(lia)) as IR.
  destruct (trunc_0_7 (inner size) ltac:(lia)) as [T7 _].
  unfold line_start_x, line3_end_x, line_end_x, line1_y, line2_y, line3_y, inner_frac.
  rewrite trunc_0_2, trunc_0_8, trunc_0_3, trunc_0_5 by lia.
  assert (Hi : inner size = size - 2 * padding size) by reflexivity.
  unfold line_width.
  generalize dependent (inner size). generalize dependent (padding size).
  intros p P i IR Hi T7.
  div_facts size 32. div_facts (size * 15) 100.
  div_facts (i * 2) 10. div_facts (i * 3) 10. div_facts (i * 5) 10.
  div_facts (i * 7) 10. div_facts (i * 8) 10.
  lia.
Qed.

Lemma guide_lines_inside_witness :
  12 <= 48 <= 2 ^ 31 /\
  (let p := padding 48 in
   let lw := line_width 48 in
   p + lw <= line_start_x 48 /\ line_start_x 48 < line3_end_x 48 /\
   line3_end_x 48 < line_end_x 48 /\ line_end_x 48 <= 48 - p - lw /\
   p + lw <= line1_y 48 /\ line1_y 48 < line2_y 48 /\
   line2_y 48 < line3_y 48 /\ line3_y 48 <= 48 - p - lw).
Proof. split; [lia | apply (guide_lines_inside 48); lia]. Defined.


(** When [icons] is not a regular file and some output path is a
    directory, the run raises [IsADirectoryError] for the first such path
    in the order 16, 48, 128, after creating [icons] if it was missing and
    after writing and reporting the files of the smaller sizes. *)
Theorem main_blocked (line_cover : Z -> Z -> Z -> Z -> Z -> Z -> Z -> bool) (w : world) (s : Z) :
  (forall img, fs w icons_dir <> Some (File img)) -> first_dir (fs w) = Some s ->
  snd (main line_cover w) = inl (IsADirectoryError (icon_path s)) /\
  trace (fst (main line_cover w)) =
    app (trace w)
      (app (match fs w icons_dir with None => [EMkdir icons_dir] | Some _ => [] end)
         (flat_map progress_events (filter (fun s' => s' <? s) sizes))) /\
  (forall s', In s' sizes -> s' < s ->
     fs (fst (main line_cover w)) (icon_path s') = Some (File (create_icon line_cover s'))).
Proof.
  intros Hn Hs. unfold main.
  destruct (fs w icons_dir) as [[|img]|] eqn:Hd.
  - erewrite bind_inr; [|unfold path_exists; rewrite Hd; reflexivity]. cbn [negb].
    erewrite bind_inr; [|reflexivity].
    destruct (loop_blocked line_cover w s Hd Hs) as (w' & E & T & F).
    rewrite E. cbn [fst snd]. split; [reflexivity|]. split; [exact T|exact F].
  - exfalso. exact (Hn img eq_refl).
  - erewrite bind_inr; [|unfold path_exists; rewrite Hd; reflexivity]. cbn [negb].
    erewrite bind_inr; [|unfold makedirs; rewrite Hd; reflexivity].
    set (w1 := mk_world _ _).
    assert (H1 : fs w1 icons_dir = Some Dir) by apply fs_update_eq.
    assert (H2 : first_dir (fs w1) = Some s) by (simpl; rewrite first_dir_update; exact Hs).
    destruct (loop_blocked line_cover w1 s H1 H2) as (w' & E & T & F).
    rewrite E. cbn [fst snd]. split; [reflexivity|]. split; [|exact F].
    rewrite T. unfold w1, emit. simpl. rewrite <- app_assoc. reflexivity.
Qed.

Lemma main_blocked_witness :
  (forall img, fs blocked_world icons_dir <> Some (File img)) /\
  first_dir (fs blocked_world) = Some 48 /\
  snd (main pil_line blocked_world) = inl (IsADirectoryError (icon_path 48)) /\
  trace (fst (main pil_line blocked_world)) =
    app (trace blocked_world)
      (app (match fs blocked_world icons_dir with None => [EMkdir icons_dir] | Some _ => [] end)
         (flat_map progress_events (filter (fun s' => s' <? 48) sizes))) /\
  (forall s', In s' sizes -> s' < 48 ->
     fs (fst (main pil_line blocked_world)) (icon_path s') = Some (File (create_icon pil_line s'))).
Proof.
  assert (H1 : forall img, fs blocked_world icons_dir <> Some (File img))
    by (intros img H; vm_compute in H; discriminate H).
  assert (H2 : first_dir (fs blocked_world) = Some 48) by (vm_compute; reflexivity).
  split; [exact H1|]. split; [exact H2|].
  exact (main_blocked pil_line blocked_world 48 H1 H2).
Defined.

(** The completion line is printed by a run exactly when the run
    succeeds. *)
Theorem completion_iff_success (line_cover : Z -> Z -> Z -> Z -> Z -> Z -> Z -> bool) (w : world) :
  exists l, trace (fst (main line_cover w)) = app (trace w) l /\
    (In (EPrint "All icons created successfully!") l <-> snd (main line_cover w) = inr tt).
Proof.
  assert (Last : In (EPrint "All icons created successfully!") loop_trace)
    by (unfold loop_trace; simpl; tauto).
  destruct (fs w icons_dir) as [[|img]|] eqn:Hd.
  2: { rewrite (main_file line_cover w img Hd). exists []. cbn [fst snd].
       split; [rewrite app_nil_r; reflexivity | split; [intros [] | discriminate]]. }
  all: destruct (first_dir (fs w)) as [s|] eqn:Fd.
  1,3: assert (Hn : forall img, fs w icons_dir <> Some (File img)) by (rewrite Hd; discriminate);
       destruct (main_blocked line_cover w s Hn Fd) as (E & T & _);
       rewrite E, T; eexists; split; [reflexivity|];
       split; [|discriminate];
       apply first_dir_in in Fd; rewrite Hd;
       destruct Fd as [<-|[<-|[<-|[]]]]; intros Hin; vm_compute in Hin;
       repeat destruct Hin as [Hin|Hin]; try discriminate Hin; contradiction.
  all: apply first_dir_none in Fd.
  - rewrite main_dir by assumption. exists loop_trace. cbn [fst snd trace].
    split; [reflexivity | split; [reflexivity | intros _; exact Last]].
  - rewrite main_none by assumption. exists (EMkdir icons_dir :: loop_trace). cbn [fst snd trace].
    split; [reflexivity | split; [reflexivity | intros _; right; exact Last]].
Qed.

(** A run changes no entry of the file system other than [icons] and the
    three output paths, whatever its outcome. *)
Theorem main_frame (line_cover : Z -> Z -> Z -> Z -> Z -> Z -> Z -> bool) (w : world) (p : path) :
  ~ In p (icons_dir :: map icon_path sizes) -> fs (fst (main line_cover w)) p = fs w p.
Proof.
  revert w p. change (frame (icons_dir :: map icon_path sizes) (main line_cover)).
  unfold main. apply frame_bind; [apply frame_path_exists|]. intros b.
  apply frame_bind.
  - destruct b; cbn [negb]; [apply frame_ret | apply frame_makedirs; left; reflexivity].
  - intros _. apply frame_bind; [|intros _; apply frame_print].
    apply frame_for_each. intros s Hs. unfold icon_step.
    apply frame_bind; [|intros _; apply frame_print].
    apply frame_save. right. exact (in_map icon_path sizes s Hs).
Qed.

Lemma main_frame_witness :
  ~ In ["notes.txt"] (icons_dir :: map icon_path sizes) /\
  fs (fst (main pil_line empty_world)) ["notes.txt"] = fs empty_world ["notes.txt"].
Proof.
  assert (N : ~ In ["notes.txt"] (icons_dir :: map icon_path sizes))
    by (intros H; vm_compute in H; repeat destruct H as [H|H]; try discriminate H; exact H).
  split; [exact N | exact (main_frame pil_line empty_world ["notes.txt"] N)].
Defined.

(** A run keeps a file system in which every entry lies in a directory
    that way, whatever its outcome. *)
Theorem main_keeps_wf (line_cover : Z -> Z -> Z -> Z -> Z -> Z -> Z -> bool) (w : world) :
  wf_fs (fs w) -> wf_fs (fs (fst (main line_cover w))).
Proof.
  revert w. change (keeps_wf (main line_cover)).
  unfold main. apply keeps_wf_bind; [apply keeps_wf_path_exists|]. intros b.
  apply keeps_wf_bind.
  - destruct b; cbn [negb]; [apply keeps_wf_ret | apply keeps_wf_makedirs].
  - intros _. apply keeps_wf_bind; [|intros _; apply keeps_wf_print].
    apply keeps_wf_for_each. intros s. unfold icon_step.
    apply keeps_wf_bind; [apply keeps_wf_save | intros _; apply keeps_wf_print].
Qed.

Lemma main_keeps_wf_witness :
  wf_fs (fs empty_world) /\ wf_fs (fs (fst (main pil_line empty_world))).
Proof.
  assert (H : wf_fs (fs empty_world)) by (intros p n _ H; exfalso; apply H; reflexivity).
  split; [exact H | exact (main_keeps_wf pil_line empty_world H)].
Defined.

(** The f-string [f'{icons_dir}/icon{size}.png'] gives distinct paths to
    distinct sizes between 0 and 10^20. *)
Theorem icon_path_injective (a b : Z) :
  0 <= a < 10 ^ 20 -> 0 <= b < 10 ^ 20 -> a <> b -> icon_path a <> icon_path b.
Proof.
  intros Ha Hb Nab E. apply Nab.
  unfold icon_path in E. apply app_inj_tail in E as [_ E].
  unfold icon_name, str_of_Z in E. apply append_cancel_l in E.
  rewrite !digits_app in E.
  apply (f_equal (fun t => read_digits t 0)) in E.
  rewrite !read_digits_digits in E
    by (change (Z.of_nat 20) with 20; lia).
  exact E.
Qed.

Lemma icon_path_injective_witness :
  (0 <= 16 < 10 ^ 20 /\ 0 <= 48 < 10 ^ 20 /\ 16 <> 48) /\ icon_path 16 <> icon_path 48.
Proof.
  split; [split; [lia|split; [lia|discriminate]] | apply icon_path_injective; lia].
Defined.

(** Lines 12-14: in binary64 each gradient channel is the floor of its exact
    interpolation [139 - 80 y / size] (red) and [92 + 38 y / size] (green)
    when that value is not an integer, and the integer or one less when it
    is, for every size up to 2^31. *)
Theorem gradient_channels (size y : Z) :
  0 < size <= 2 ^ 31 -> 0 <= y < size ->
  (let n := 139 * size - 80 * y in
   (n / size - 1 <= red (gradient_color size y) <= n / size) /\
   (n mod size <> 0 -> red (gradient_color size y) = n / size)) /\
  (let n := 92 * size + 38 * y in
   (n / size - 1 <= green (gradient_color size y) <= n / size) /\
   (n mod size <> 0 -> green (gradient_color size y) = n / size)).
Proof.
  intros Hs Hy.
  assert (S0 : (0 < inject_Z size)%Q)
    by (change 0%Q with (inject_Z 0); rewrite <- Zlt_Qlt; lia).
  pose proof (ratio_bounds size y ltac:(lia) Hy) as RB.
  split; cbv zeta.
  - rewrite red_value.
    pose proof (GradientError.red_near size y ltac:(lia) Hy) as Nr.
    pose proof (red_arg_bounds _ RB) as Ab.
    apply GradientError.trunc_near with (eps := (382 * u53)%Q); try lia;
      try (unfold u53; lra).
    assert (E : (inject_Z (139 * size - 80 * y) / inject_Z size
                 == 139 - 80 * (inject_Z y / inject_Z size))%Q)
      by (rewrite inject_Z_sub, !inject_Z_mult; field; intro; lra).
    rewrite E. exact Nr.
  - rewrite green_value.
    pose proof (GradientError.green_near size y ltac:(lia) Hy) as Ng.
    pose proof (green_arg_bounds _ RB) as Ab.
    apply GradientError.trunc_near with (eps := (217 * u53)%Q); try lia;
      try (unfold u53; lra).
    assert (E : (inject_Z (92 * size + 38 * y) / inject_Z size
                 == 92 + 38 * (inject_Z y / inject_Z size))%Q)
      by (rewrite inject_Z_plus, !inject_Z_mult; field; intro; lra).
    rewrite E. exact Ng.
Qed.

Lemma gradient_channels_witness :
  (0 < 48 <= 2 ^ 31 /\ 0 <= 7 < 48) /\
  ((let n := 139 * 48 - 80 * 7 in
    (n / 48 - 1 <= red (gradient_color 48 7) <= n / 48) /\
    (n mod 48 <> 0 -> red (gradient_color 48 7) = n / 48)) /\
   (let n := 92 * 48 + 38 * 7 in
    (n / 48 - 1 <= green (gradient_color 48 7) <= n / 48) /\
    (n mod 48 <> 0 -> green (gradient_color 48 7) = n / 48))).
Proof.
  split; [lia | apply gradient_channels; lia].
Defined.
